(** * Search ranking, result selection and scroll tracking of the website

    A shallow embedding of the top bar component (the search ranker, the
    keyboard selection over its results, the catalog loader and the
    scroll-phase effects) and of the [useScrollToSection] hook, with the
    properties the design document states about them. *)

From Stdlib Require Import ZArith NArith Lia Ascii String.
From stdpp Require Import base list gmap strings sorting.

Open Scope Z_scope.

(** ** JavaScript strings

    A string is its sequence of UTF-16 code units.  [===] on strings is
    equality of these sequences; [startsWith] and [includes] compare code
    units. *)

Abbreviation jsstring := (list N).

Module JsString.

(** A literal of printable ASCII characters as a JavaScript string. *)
Definition ofString (s : string) : jsstring :=
  (λ a, N_of_ascii a) <$> list_ascii_of_string s.

(** WhiteSpace and LineTerminator code points, the ones [trim] strips. *)
Definition isWhiteSpace (c : N) : bool :=
  ((9 <=? c) && (c <=? 13) || (c =? 32) || (c =? 160) || (c =? 5760)
   || (8192 <=? c) && (c <=? 8202) || (c =? 8232) || (c =? 8233)
   || (c =? 8239) || (c =? 8287) || (c =? 12288) || (c =? 65279))%N.

Fixpoint trimStart (s : jsstring) : jsstring :=
  match s with
  | [] => []
  | c :: s' => if isWhiteSpace c then trimStart s' else s
  end.

Definition trimEnd (s : jsstring) : jsstring :=
  reverse (trimStart (reverse s)).

Definition trim (s : jsstring) : jsstring := trimEnd (trimStart s).

(** The truth value of a string: the empty string is the only falsy one. *)
Definition truthy (s : jsstring) : bool :=
  match s with [] => false | _ :: _ => true end.

(** Case mapping of one code unit.  The tables are the Unicode default
    case mappings of the Basic Latin and Latin-1 Supplement blocks and of
    the images of these blocks; a code unit outside them is left as it
    is.  On the strings of these two blocks, [isLatin1] below, the maps
    built from the tables are [String.prototype.toLowerCase] and
    [toUpperCase]; a string with a cased letter of another block is outside
    what they model. *)
Definition lowerUnit (c : N) : N :=
  (if (65 <=? c) && (c <=? 90) then c + 32
   else if (192 <=? c) && (c <=? 222) && negb (c =? 215) then c + 32
   else if c =? 376 then 255
   else if c =? 924 then 956
   else c)%N.

Definition upperUnit (c : N) : list N :=
  (if (97 <=? c) && (c <=? 122) then [c - 32]
   else if (224 <=? c) && (c <=? 254) && negb (c =? 247) then [c - 32]
   else if c =? 181 then [924]
   else if c =? 223 then [83; 83]
   else if c =? 255 then [376]
   else [c])%N.

Definition toLowerCase (s : jsstring) : jsstring := lowerUnit <$> s.

Definition toUpperCase (s : jsstring) : jsstring := s ≫= upperUnit.

Definition eqb (s q : jsstring) : bool := bool_decide (s = q).

Fixpoint startsWith (s q : jsstring) {struct q} : bool :=
  match q, s with
  | [], _ => true
  | _ :: _, [] => false
  | d :: q', c :: s' => (c =? d)%N && startsWith s' q'
  end.

Fixpoint includes (s q : jsstring) : bool :=
  startsWith s q ||
  match s with
  | [] => false
  | _ :: s' => includes s' q
  end.

(** Every code unit is white space: the strings [trim] empties. *)
Definition blank (s : jsstring) : Prop :=
  Forall (λ c, isWhiteSpace c = true) s.

(** Code units below 128: the strings of ASCII characters. *)
Definition isAscii (s : jsstring) : Prop := Forall (λ c, (c < 128)%N) s.

(** Code units below 256: the strings of Basic Latin and Latin-1
    Supplement characters, which the case tables cover. *)
Definition isLatin1 (s : jsstring) : Prop := Forall (λ c, (c < 256)%N) s.

End JsString.

Import JsString.

(** ** [Array.prototype.sort]

    The sort is stable and, for a consistent comparator, its result is
    sorted; a stable insertion sort computes that result.  [cmp a b <= 0]
    keeps [a] before [b]. *)

Fixpoint insertBy {A} (cmp : A → A → Z) (x : A) (l : list A) : list A :=
  match l with
  | [] => [x]
  | y :: l' => if decide (cmp x y ≤ 0) then x :: l else y :: insertBy cmp x l'
  end.

Definition sort {A} (cmp : A → A → Z) (l : list A) : list A :=
  foldr (insertBy cmp) [] l.

(** [Array.prototype.slice(0, n)] *)
Definition slice0 {A} (n : nat) (l : list A) : list A := take n l.

(** ** The top bar: search ranking *)

Module TopBar.

Inductive ResultType := TPage | TSection | TAction | TContent.

(** A catalog entry.  The optional fields are [None] when absent; the
    priority is an integer, as the data model of the design document has
    it. *)
Record SearchResult := {
  id : jsstring;
  label : jsstring;
  type : ResultType;
  path : jsstring;
  section : option jsstring;
  keywords : option (list jsstring);
  priority : option Z
}.

Record Scored := { item : SearchResult; score : Z }.

(** [item.keywords?.some(p)]: [undefined], falsy, when there are no
    keywords. *)
Definition keywordsSome (p : jsstring → bool) (it : SearchResult) : bool :=
  match keywords it with
  | Some ks => existsb p ks
  | None => false
  end.

(** [item.priority || 50]: the priority unless it is unset or falsy. *)
Definition priorityOr50 (it : SearchResult) : Z :=
  match priority it with
  | Some p => if decide (p = 0) then 50 else p
  | None => 50
  end.

(** The match quality of an item, before the priority is added. *)
Definition matchScore (query : jsstring) (it : SearchResult) : Z :=
  let labelLower := toLowerCase (label it) in
  if eqb labelLower query then 1000
  else if startsWith labelLower query then 500
  else if includes labelLower query then 300
  else if keywordsSome (λ k, eqb (toLowerCase k) query) it then 200
  else if keywordsSome (λ k, startsWith (toLowerCase k) query) it then 150
  else if keywordsSome (λ k, includes (toLowerCase k) query) it then 100
  else 0.

(** The body of the [map] callback that scores one item.  The sum is the
    sum of integers; it is the code's sum of doubles for the priorities
    of [exactPriority] below. *)
Definition scoreItem (query : jsstring) (it : SearchResult) : Scored :=
  let score := matchScore query it in
  let score := if decide (0 < score) then score + priorityOr50 it else score in
  {| item := it; score := score |}.

Definition scoredItems (query : jsstring) (searchableItems : list SearchResult)
  : list Scored :=
  scoreItem query <$> searchableItems.

(** The [useMemo] callback of [searchResults]. *)
Definition searchResults (searchQuery : jsstring)
    (searchableItems : list SearchResult) : list SearchResult :=
  if negb (truthy (trim searchQuery)) then []
  else
    let query := toLowerCase searchQuery in
    slice0 8
      (item <$>
         sort (λ a b, score b - score a)
           (filter (λ s, 0 < score s) (scoredItems query searchableItems))).

(** The combined score the ranker gives an item. *)
Definition combinedScore (query : jsstring) (it : SearchResult) : Z :=
  score (scoreItem query it).

(** [q] occurs in [s] as a contiguous part. *)
Definition occursIn (q s : jsstring) : Prop := ∃ l r, s = l ++ q ++ r.

(** Some keyword of the item, lower-cased, satisfies [P]. *)
Definition someKeyword (P : jsstring → Prop) (it : SearchResult) : Prop :=
  ∃ ks k, keywords it = Some ks ∧ k ∈ ks ∧ P (toLowerCase k).

(** The table of match kinds of the design document, first match wins:
    the three label rows, then, when no label row applies, the three
    keyword rows. *)
Inductive BaseScore (query : jsstring) (it : SearchResult) : Z → Prop :=
| LabelEquals :
    toLowerCase (label it) = query →
    BaseScore query it 1000
| LabelStartsWith :
    toLowerCase (label it) ≠ query →
    query `prefix_of` toLowerCase (label it) →
    BaseScore query it 500
| LabelContains :
    toLowerCase (label it) ≠ query →
    ¬ query `prefix_of` toLowerCase (label it) →
    occursIn query (toLowerCase (label it)) →
    BaseScore query it 300
| KeywordEquals :
    ¬ occursIn query (toLowerCase (label it)) →
    someKeyword (λ k, k = query) it →
    BaseScore query it 200
| KeywordStartsWith :
    ¬ occursIn query (toLowerCase (label it)) →
    ¬ someKeyword (λ k, k = query) it →
    someKeyword (λ k, query `prefix_of` k) it →
    BaseScore query it 150
| KeywordContains :
    ¬ occursIn query (toLowerCase (label it)) →
    ¬ someKeyword (λ k, k = query) it →
    ¬ someKeyword (λ k, query `prefix_of` k) it →
    someKeyword (λ k, occursIn query k) it →
    BaseScore query it 100
| NoMatch :
    ¬ occursIn query (toLowerCase (label it)) →
    ¬ someKeyword (λ k, occursIn query k) it →
    BaseScore query it 0.


(** Every matching item of the catalog, best first. *)
Definition ranking (query : jsstring) (items : list SearchResult)
  : list SearchResult :=
  sort (λ a b, combinedScore query b - combinedScore query a)
    (filter (λ it, 0 < combinedScore query it) items).

(** The whole catalog in descending order of score, ties in catalog
    order. *)
Definition sortedCatalog (query : jsstring) (items : list SearchResult)
  : list SearchResult :=
  sort (λ a b, combinedScore query b - combinedScore query a) items.

(** The kinds of match the design document ranks, for the lower-cased
    query. *)
Definition exactLabelMatch (query : jsstring) (it : SearchResult) : Prop :=
  toLowerCase (label it) = query.

Definition partialLabelMatch (query : jsstring) (it : SearchResult) : Prop :=
  toLowerCase (label it) ≠ query ∧ occursIn query (toLowerCase (label it)).

Definition labelMatch (query : jsstring) (it : SearchResult) : Prop :=
  occursIn query (toLowerCase (label it)).

Definition keywordOnlyMatch (query : jsstring) (it : SearchResult) : Prop :=
  ¬ occursIn query (toLowerCase (label it))
  ∧ someKeyword (λ k, occursIn query k) it.

(** [a] is ranked strictly above [b]: its score is greater, and where
    [b] is in the result, [a] is in the result before it. *)
Definition rankedAbove (searchQuery : jsstring) (items : list SearchResult)
    (a b : SearchResult) : Prop :=
  combinedScore (toLowerCase searchQuery) b
    < combinedScore (toLowerCase searchQuery) a
  ∧ ∀ l1 l2, searchResults searchQuery items = l1 ++ b :: l2 → a ∈ l1.

(** The priorities for which the code's sum of a base score and the
    priority, a sum of doubles, is the sum of the integers: the integers
    of magnitude up to 2^53 - 1001, a base score being at most 1000 and
    every integer of magnitude up to 2^53 a double. *)
Definition exactPriority (it : SearchResult) : Prop :=
  Z.abs (priorityOr50 it) ≤ 2 ^ 53 - 1001.

End TopBar.

(** ** The top bar: selection over the results

    The part of the component state the search box works on, and the
    handlers that change it.  A state update that changes a dependency of
    the [searchResults] memo recomputes it, which gives the result array a
    new identity, and the effect on [searchResults] then resets the
    selected index. *)

Module Selection.
Import TopBar.

Record State := {
  searchQuery : jsstring;
  searchableItems : list SearchResult;
  selectedResultIndex : Z;
  (** the identity of the memoised result array *)
  searchResultsId : nat
}.

(** The memoised value of [searchResults] in a state. *)
Definition results (st : State) : list SearchResult :=
  searchResults (searchQuery st) (searchableItems st).

Definition initial (catalog : list SearchResult) : State :=
  {| searchQuery := []; searchableItems := catalog;
     selectedResultIndex := -1; searchResultsId := 0 |}.

(** The render after a dependency of the memo changed: a new result
    array, and the reset effect. *)
Definition recompute (query : jsstring) (items : list SearchResult)
    (st : State) : State :=
  {| searchQuery := query; searchableItems := items;
     selectedResultIndex := -1;
     searchResultsId := S (searchResultsId st) |}.

(** Setting the query to the value it has does not render again. *)
Definition setSearchQuery (v : jsstring) (st : State) : State :=
  if decide (v = searchQuery st) then st
  else recompute v (searchableItems st) st.

(** The parsed catalog is a new array. *)
Definition setSearchableItems (data : list SearchResult) (st : State) : State :=
  recompute (searchQuery st) data st.

Definition setSelectedResultIndex (f : Z → Z) (st : State) : State :=
  {| searchQuery := searchQuery st; searchableItems := searchableItems st;
     selectedResultIndex := f (selectedResultIndex st);
     searchResultsId := searchResultsId st |}.

Inductive Key := ArrowDown | ArrowUp | Enter | Escape | OtherKey.

(** Every path of [handleSearchSelect] ends by clearing the query; where
    it navigates to is outside this state. *)
Definition handleSearchSelect (st : State) : State := setSearchQuery [] st.

Definition handleSearchKeyDown (key : Key) (st : State) : State :=
  match key with
  | ArrowDown =>
      setSelectedResultIndex
        (λ prev, if decide (prev < Z.of_nat (length (results st)) - 1)
                 then prev + 1 else prev) st
  | ArrowUp =>
      setSelectedResultIndex
        (λ prev, if decide (0 < prev) then prev - 1 else -1) st
  | Enter =>
      if decide (0 ≤ selectedResultIndex st) then handleSearchSelect st
      else st
  | Escape => setSearchQuery [] st
  | OtherKey => st
  end.

Inductive Event :=
| Change (value : jsstring)
| KeyDown (key : Key)
| MouseEnter (index : nat)
| Click (index : nat)
| ClickOutside
| CatalogLoaded (data : list SearchResult).

(** The rows of the dropdown are the results: only they can be hovered
    or clicked. *)
Definition step (st : State) (ev : Event) : State :=
  match ev with
  | Change value => setSearchQuery value st
  | KeyDown key => handleSearchKeyDown key st
  | MouseEnter index =>
      if decide (index < length (results st))%nat
      then setSelectedResultIndex (λ _, Z.of_nat index) st
      else st
  | Click index =>
      if decide (index < length (results st))%nat
      then handleSearchSelect st
      else st
  | ClickOutside => setSearchQuery [] st
  | CatalogLoaded data => setSearchableItems data st
  end.

Definition run (catalog : list SearchResult) (evs : list Event) : State :=
  foldl step (initial catalog) evs.

(** The index is -1 or an index of the results. *)
Definition inRange (st : State) : Prop :=
  -1 ≤ selectedResultIndex st ≤ Z.of_nat (length (results st)) - 1.

End Selection.

(** ** The top bar: loading the catalog

    [loadSearchResults] runs up to its first [await], and goes on when the
    fetch settles and again when the body is parsed; the clean-up of the
    effect may run in between. *)

Module Loader.
Import TopBar.

(** What [fetch] settles to: a rejection, or a response with its status
    and, when the body is a JSON document, the parsed body. *)
Inductive FetchResult :=
| NetworkError
| Response (status : Z) (body : option (list SearchResult)).

(** [response.ok]: the status is in the range 200-299. *)
Definition ok (status : Z) : bool := bool_decide (200 ≤ status ≤ 299).

(** What [console.error] received. *)
Inductive Logged :=
| FetchRejected
| FailedToLoad (status : Z)
| JsonRejected.

Inductive Phase :=
| AwaitingFetch
| AwaitingJson (body : option (list SearchResult))
| Done.

Record State := {
  isMounted : bool;
  searchableItems : list SearchResult;
  console : list Logged;
  phase : Phase
}.

(** The state after the effect started the load. *)
Definition initial : State :=
  {| isMounted := true; searchableItems := []; console := [];
     phase := AwaitingFetch |}.

Definition catch (e : Logged) (st : State) : State :=
  {| isMounted := isMounted st; searchableItems := searchableItems st;
     console := console st ++ [e]; phase := Done |}.

Inductive Event :=
| FetchSettled (r : FetchResult)
| JsonSettled
| Unmount.

Definition step (st : State) (ev : Event) : State :=
  match ev, phase st with
  | FetchSettled NetworkError, AwaitingFetch => catch FetchRejected st
  | FetchSettled (Response status body), AwaitingFetch =>
      if negb (ok status) then catch (FailedToLoad status) st
      else {| isMounted := isMounted st;
              searchableItems := searchableItems st;
              console := console st; phase := AwaitingJson body |}
  | JsonSettled, AwaitingJson None => catch JsonRejected st
  | JsonSettled, AwaitingJson (Some data) =>
      {| isMounted := isMounted st;
         searchableItems :=
           if isMounted st then data else searchableItems st;
         console := console st; phase := Done |}
  | Unmount, _ =>
      {| isMounted := false; searchableItems := searchableItems st;
         console := console st; phase := phase st |}
  | _, _ => st
  end.

Definition run (st : State) (evs : list Event) : State := foldl step st evs.

(** The fetch did not give a response with a success status. *)
Definition failed (r : FetchResult) : Prop :=
  match r with
  | NetworkError => True
  | Response status _ => ¬ (200 ≤ status ≤ 299)
  end.

End Loader.

(** ** The top bar: the scroll phase

    The two effects on the scroll position, with the time of the timer
    made explicit, in milliseconds. *)

Module ScrollPhase.

Inductive Phase := idle | hide | show.

Record State := {
  isScrolled : bool;
  scrollPhase : Phase;
  (** [hasMountedRef.current] *)
  hasMounted : bool;
  (** when the pending timeout fires, if one is pending *)
  timeout : option Z;
  now : Z
}.

(** The effect on [isScrolled]; the clean-up of its previous run has
    cleared the timeout of that run. *)
Definition phaseEffect (st : State) : State :=
  if negb (hasMounted st) then
    {| isScrolled := isScrolled st; scrollPhase := scrollPhase st;
       hasMounted := true; timeout := timeout st; now := now st |}
  else
    let nextPhase := if isScrolled st then hide else show in
    {| isScrolled := isScrolled st; scrollPhase := nextPhase;
       hasMounted := hasMounted st; timeout := Some (now st + 450);
       now := now st |}.

(** Setting the flag to the value it has does not render again; a
    change renders and runs the effect that depends on the flag. *)
Definition setIsScrolled (v : bool) (st : State) : State :=
  if decide (v = isScrolled st) then st
  else
    phaseEffect
      {| isScrolled := v; scrollPhase := scrollPhase st;
         hasMounted := hasMounted st; timeout := timeout st;
         now := now st |}.

Definition handleScroll (scrollY : Z) (st : State) : State :=
  setIsScrolled (bool_decide (100 < scrollY)) st.

(** The first render and its effects, in the order they are declared:
    the scroll detection calls [handleScroll], whose update waits for
    the effects to finish; the phase effect runs on the first render;
    then the update is applied. *)
Definition mount (scrollY : Z) : State :=
  let first :=
    {| isScrolled := false; scrollPhase := idle; hasMounted := false;
       timeout := None; now := 0 |} in
  handleScroll scrollY (phaseEffect first).

(** Time passes; a timeout that falls due sets the phase to [idle]. *)
Definition elapse (ms : Z) (st : State) : State :=
  let t := now st + ms in
  match timeout st with
  | Some due =>
      if decide (due ≤ t) then
        {| isScrolled := isScrolled st; scrollPhase := idle;
           hasMounted := hasMounted st; timeout := None; now := t |}
      else
        {| isScrolled := isScrolled st; scrollPhase := scrollPhase st;
           hasMounted := hasMounted st; timeout := timeout st; now := t |}
  | None =>
      {| isScrolled := isScrolled st; scrollPhase := scrollPhase st;
         hasMounted := hasMounted st; timeout := None; now := t |}
  end.

Inductive Event := Scroll (scrollY : Z) | Elapse (ms : Z).

Definition step (st : State) (ev : Event) : State :=
  match ev with
  | Scroll scrollY => handleScroll scrollY st
  | Elapse ms => elapse ms st
  end.

End ScrollPhase.

(** ** The [useScrollToSection] hook *)

Module UseScrollToSection.

(** What the handler reads: the scroll position, and for the id of each
    element of the document its [offsetTop], in whole pixels. *)
Record Window := {
  scrollY : Z;
  document : gmap string Z
}.

Record Entry := { section : string; offsetTop : Z }.

Definition trackedSections : list string :=
  ["operator-portal"; "mobile-app"]%string.

(** The callback of [map]: the entry of a section, [null] when the
    document has no such element. *)
Definition lookupSection (w : Window) (section : string) : option Entry :=
  match document w !! section with
  | Some top => Some {| section := section; offsetTop := top |}
  | None => None
  end.

Definition orderedSections (w : Window) : list Entry :=
  sort (λ a b, offsetTop a - offsetTop b)
    (omap (lookupSection w) trackedSections).

(** The [forEach] over the ordered sections. *)
Definition walk (scrollPosition : Z) (entries : list Entry) : string :=
  foldl (λ currentSection e,
           if decide (offsetTop e ≤ scrollPosition) then section e
           else currentSection)
    "home"%string entries.

(** The scroll handler, on the state [activeSection]. *)
Definition handleScroll (w : Window) (activeSection : string) : string :=
  let scrollPosition := scrollY w + 150 in
  let currentSection := walk scrollPosition (orderedSections w) in
  let activeSection := currentSection in
  if decide (scrollY w < 50) then "home"%string else activeSection.

Definition initial : string := "home"%string.

Definition run (ws : list Window) : string :=
  foldl (λ activeSection w, handleScroll w activeSection) initial ws.

(** A tracked section of the document that the scroll position has
    reached. *)
Definition reached (w : Window) (s : string) (top : Z) : Prop :=
  s ∈ trackedSections ∧ document w !! s = Some top ∧ top ≤ scrollY w + 150.

End UseScrollToSection.

(** ** The catalog of the component with the embedded index *)

Module Catalog.
Import TopBar.

Definition entry (id label : string) (type : ResultType) (path : string)
    (section : option string) (priority : Z) (keywords : list string)
  : SearchResult :=
  {| id := ofString id; label := ofString label; type := type;
     path := ofString path; section := ofString <$> section;
     keywords := Some (ofString <$> keywords);
     priority := Some priority |}.

Definition SEARCHABLE_ITEMS : list SearchResult :=
  [
    entry "home" "Home" TPage "/" None 100
      ["main"; "start"; "landing"];
    entry "contact" "Contact Us" TPage "/contact" None 100
      ["email"; "phone"; "support"; "help"; "reach"; "message"];
    entry "careers" "Careers" TPage "/careers" None 100
      ["jobs"; "hiring"; "work"; "employment"; "openings"; "join"; "team"];
    entry "legal" "Legal" TPage "/legal" None 100
      ["terms"; "privacy"; "policy"; "documents"];
    entry "get-app" "Get the App" TAction
      "https://app.parkwithparallel.com" None 90
      ["download"; "install"; "mobile"; "phone"; "ios"; "android"];
    entry "pay-now" "Pay for Parking" TAction
      "https://pay.parkwithparallel.com" None 90
      ["payment"; "pay"; "parking"; "ticket"; "fee"];
    entry "request-demo" "Request a Demo" TAction "/contact" None 85
      ["demo"; "trial"; "test"; "try"; "see"];
    entry "operator-login" "Operator Portal Login" TAction
      "https://operator.parkwithparallel.com" None 85
      ["login"; "sign in"; "portal"; "dashboard"; "manage"];
    entry "mobile-app" "Mobile App" TSection "/" (Some "app-hero") 80
      ["app"; "mobile"; "phone"; "download"; "parking app"];
    entry "operator-portal" "Operator Portal" TSection
      "/" (Some "operator-portal") 80
      ["operator"; "portal"; "management"; "dashboard"; "analytics";
       "manage"];
    entry "trust-badges" "Trusted Partners" TSection
      "/" (Some "trust-badges") 70
      ["partners"; "trusted"; "clients"; "customers"];
    entry "demo-video" "Demo Video" TSection "/" (Some "demo-video") 70
      ["video"; "demo"; "watch"; "see"];
    entry "tutorials" "Operator Tutorials" TSection
      "/" (Some "operator-portal") 70
      ["tutorial"; "guide"; "how to"; "learn"; "training"];
    entry "app-terms" "App Terms of Service" TPage
      "/legal/app/terms-of-service" None 60
      ["terms"; "service"; "app"; "conditions"; "agreement"];
    entry "app-privacy" "App Privacy Policy" TPage
      "/legal/app/privacy-policy" None 60
      ["privacy"; "data"; "app"; "personal"; "information"; "gdpr"];
    entry "operator-terms" "Operator Terms of Service" TPage
      "/legal/operator/terms-of-service" None 60
      ["terms"; "service"; "operator"; "conditions"; "agreement"];
    entry "operator-privacy" "Operator Privacy Policy" TPage
      "/legal/operator/privacy-policy" None 60
      ["privacy"; "data"; "operator"; "personal"; "information"; "alpr";
       "license plate"];
    entry "content-parking" "Smart Parking Solutions" TContent
      "/" (Some "hero") 50
      ["parking"; "smart"; "solution"; "technology"; "ai"; "automated"];
    entry "content-setup" "Easy Setup" TContent "/" (Some "setup") 50
      ["setup"; "install"; "configure"; "quick"; "easy"; "minutes"];
    entry "content-features" "Platform Features" TContent
      "/" (Some "feature-grid") 50
      ["features"; "capabilities"; "tools"; "analytics"; "reports"];
    entry "content-ecosystem" "Parking Ecosystem" TContent
      "/" (Some "ecosystem") 50
      ["ecosystem"; "platform"; "integration"; "unified"];
    entry "job-mobile" "Mobile Engineer Position" TContent "/careers" None 40
      ["mobile"; "engineer"; "react native"; "ios"; "android"; "developer";
       "job"];
    entry "job-devops" "DevOps Engineer Position" TContent "/careers" None 40
      ["devops"; "engineer"; "aws"; "infrastructure"; "deployment"; "job"];
    entry "job-marketing" "Marketing Manager Position" TContent
      "/careers" None 40
      ["marketing"; "manager"; "strategy"; "content"; "job"];
    entry "job-business" "Business Development Position" TContent
      "/careers" None 40
      ["business"; "development"; "sales"; "partnerships"; "job"];
    entry "content-email" "Email Support" TContent "/contact" None 40
      ["email"; "support"; "info@parkwithparallel.com"; "contact"];
    entry "content-delete-data" "Delete My Data" TContent "/legal" None 40
      ["delete"; "data"; "remove"; "gdpr"; "privacy"; "request"]
  ]%string.

(** Entries as a fetched catalog may hold them: no keywords, the
    priority as given or absent. *)
Definition plain (label : jsstring) (priority : option Z) : SearchResult :=
  {| id := label; label := label; type := TPage; path := [];
     section := None; keywords := None; priority := priority |}.

Definition withKeyword (label keyword : jsstring) (priority : option Z)
  : SearchResult :=
  {| id := label; label := label; type := TContent; path := [];
     section := None; keywords := Some [keyword]; priority := priority |}.


End Catalog.

(** ** The feature grid *)

Module FeatureGrid.

Record SmallFeature := { icon : jsstring; text : jsstring }.

Record LargeFeature := {
  largeIcon : jsstring;
  largeText : jsstring;
  background : jsstring;
  backText : jsstring
}.

Record FeaturesData := {
  smallFeatures : list SmallFeature;
  largeFeatures : list LargeFeature
}.

Record Position := { row : nat; col : nat }.

#[export] Instance Position_eq_dec : EqDecision Position.
Proof. solve_decision. Defined.

Definition COLS : nat := 10.
Definition ROWS : nat := 6.

Definition inCenterCols (col : nat) : bool :=
  bool_decide (4 ≤ col)%nat && bool_decide (col ≤ 7)%nat.

Definition inCenterRows (row : nat) : bool :=
  bool_decide (2 ≤ row)%nat && bool_decide (row ≤ 5)%nat.

(** The two loops that push the positions of the small cells. *)
Definition smallPositions : list Position :=
  row ← seq 1 ROWS;
  col ← seq 1 COLS;
  if negb (inCenterCols col && inCenterRows row)
  then [ {| row := row; col := col |} ]
  else [].

(** The top-left cells of the large features. *)
Definition largePositions : list Position :=
  [ {| row := 2; col := 4 |}; {| row := 2; col := 6 |};
    {| row := 4; col := 4 |}; {| row := 4; col := 6 |} ].

(** A rendered cell: a small one takes the cell of its position, a large
    one spans two columns and two rows from its position. *)
Inductive Cell :=
| SmallCell (index : nat) (pos : Position) (feature : SmallFeature)
| LargeCell (index : nat) (pos : Position) (feature : LargeFeature)
    (isFlipped : bool).

(** The callback of [smallPositions.map]: [null] when the data has no
    feature at the index. *)
Definition renderSmall (features : FeaturesData) : list (option Cell) :=
  imap (λ index pos,
          match smallFeatures features !! index with
          | Some feature => Some (SmallCell index pos feature)
          | None => None
          end)
    smallPositions.

(** The callback of [largeFeatures.map]: [null] when there is no position
    at the index. *)
Definition renderLarge (features : FeaturesData) (flippedCards : gset nat)
  : list (option Cell) :=
  imap (λ index feature,
          match largePositions !! index with
          | Some pos =>
              Some (LargeCell index pos feature
                      (bool_decide (index ∈ flippedCards)))
          | None => None
          end)
    (largeFeatures features).

(** The cells of the grid: React renders nothing for [null]. *)
Definition cells (features : FeaturesData) (flippedCards : gset nat)
  : list Cell :=
  omap (λ c, c) (renderSmall features ++ renderLarge features flippedCards).

(** The grid cell in row [r] and column [k] is part of the rendered
    cell. *)
Definition occupies (c : Cell) (r k : nat) : Prop :=
  match c with
  | SmallCell _ pos _ => r = row pos ∧ k = col pos
  | LargeCell _ pos _ _ =>
      (row pos ≤ r < row pos + 2)%nat ∧ (col pos ≤ k < col pos + 2)%nat
  end.

(** The cell is in the 2x2 block of a large position. *)
Definition inBlock (pos : Position) (r k : nat) : Prop :=
  (row pos ≤ r < row pos + 2)%nat ∧ (col pos ≤ k < col pos + 2)%nat.

(** [handleLargeFeatureHover], as the update of [flippedCards]. *)
Definition handleLargeFeatureHover (index : nat) (isHovering : bool)
    (prev : gset nat) : gset nat :=
  if isHovering then {[ index ]} ∪ prev else prev ∖ {[ index ]}.

Definition hovers (evs : list (nat * bool)) : gset nat :=
  foldl (λ flipped ev, handleLargeFeatureHover ev.1 ev.2 flipped) ∅ evs.

(** *** Loading the features *)

Inductive FetchResult :=
| NetworkError
| Response (status : Z) (body : option FeaturesData).

Inductive Phase :=
| AwaitingFetch
| AwaitingJson (body : option FeaturesData)
| Done.

Record State := {
  features : option FeaturesData;
  isLoading : bool;
  flippedCards : gset nat;
  (** the number of calls of [console.error] *)
  errors : nat;
  phase : Phase
}.

Definition initial : State :=
  {| features := None; isLoading := true; flippedCards := ∅; errors := 0;
     phase := AwaitingFetch |}.

(** The [catch] block followed by the [finally] block. *)
Definition catchFinally (st : State) : State :=
  {| features := features st; isLoading := false;
     flippedCards := flippedCards st; errors := S (errors st);
     phase := Done |}.

Inductive Event :=
| FetchSettled (r : FetchResult)
| JsonSettled
| Hover (index : nat) (isHovering : bool).

Definition step (st : State) (ev : Event) : State :=
  match ev, phase st with
  | FetchSettled NetworkError, AwaitingFetch => catchFinally st
  | FetchSettled (Response status body), AwaitingFetch =>
      if negb (Loader.ok status) then catchFinally st
      else {| features := features st; isLoading := isLoading st;
              flippedCards := flippedCards st; errors := errors st;
              phase := AwaitingJson body |}
  | JsonSettled, AwaitingJson None => catchFinally st
  | JsonSettled, AwaitingJson (Some data) =>
      {| features := Some data; isLoading := false;
         flippedCards := flippedCards st; errors := errors st;
         phase := Done |}
  | Hover index isHovering, _ =>
      {| features := features st; isLoading := isLoading st;
         flippedCards :=
           handleLargeFeatureHover index isHovering (flippedCards st);
         errors := errors st; phase := phase st |}
  | _, _ => st
  end.

Definition run (st : State) (evs : list Event) : State := foldl step st evs.

(** What the component renders: [null] while loading or without
    features. *)
Definition render (st : State) : option (list Cell) :=
  match features st with
  | Some data =>
      if isLoading st then None else Some (cells data (flippedCards st))
  | None => None
  end.

(** The load did not give the features: the fetch was rejected, the
    status is outside 200-299, or the body is no JSON document. *)
Definition failed (r : FetchResult) : Prop :=
  match r with
  | NetworkError => True
  | Response status body => ¬ (200 ≤ status ≤ 299) ∨ body = None
  end.

(** What every state of a load satisfies. *)
Definition loadInvariant (st : State) : Prop :=
  match phase st with
  | AwaitingFetch | AwaitingJson _ =>
      isLoading st = true ∧ features st = None ∧ errors st = 0%nat
  | Done =>
      isLoading st = false
      ∧ (features st = None ∧ errors st = 1%nat
         ∨ features st ≠ None ∧ errors st = 0%nat)
  end.

End FeatureGrid.

(** ** Scrolling to a section *)

Module ScrollToSection.
Import UseScrollToSection.

(** [scrollToSection]: the [top] it passes to [window.scrollTo], [None]
    when it does not scroll. *)
Definition scrollToSection (w : Window) (sectionId : string) : option Z :=
  if decide (sectionId = "home"%string) then Some 0
  else
    match document w !! sectionId with
    | Some offsetTop => Some (offsetTop - 100)
    | None => None
    end.

(** The window once a scroll to [top] has come to rest there. *)
Definition scrolledTo (top : Z) (w : Window) : Window :=
  {| scrollY := top; document := document w |}.

End ScrollToSection.

(** ** Runs of the scroll phase *)

Module ScrollPhaseRuns.
Import ScrollPhase.

Definition run (st : State) (evs : list Event) : State := foldl step st evs.

(** Time does not run backwards. *)
Definition forward (ev : Event) : Prop :=
  match ev with
  | Elapse ms => 0 ≤ ms
  | Scroll _ => True
  end.

(** The phase and the timeout agree: without a pending timeout the phase
    is [idle]; with one, it is due within 450 ms and the phase is the one
    of the scrolled flag. *)
Definition consistent (st : State) : Prop :=
  hasMounted st = true
  ∧ match timeout st with
    | None => scrollPhase st = idle
    | Some due =>
        now st < due ≤ now st + 450
        ∧ scrollPhase st = (if isScrolled st then hide else show)
    end.

End ScrollPhaseRuns.

(** ** Runs of the catalog load *)

Module LoaderRuns.
Import TopBar Loader.

(** The events so far account for the state: a catalog that is not empty
    is the parsed body of a response with a success status, and so is a
    body that is being parsed; an error is logged only with the catalog
    empty, and once. *)
Definition accounted (evs : list Event) (st : State) : Prop :=
  (searchableItems st = []
   ∨ ∃ status, 200 ≤ status ≤ 299
       ∧ FetchSettled (Response status (Some (searchableItems st))) ∈ evs)
  ∧ (∀ body, phase st = AwaitingJson body →
       ∃ status, 200 ≤ status ≤ 299
                 ∧ FetchSettled (Response status body) ∈ evs)
  ∧ (length (console st) ≤ 1)%nat
  ∧ (console st ≠ [] → searchableItems st = [] ∧ phase st = Done)
  ∧ (phase st ≠ Done → searchableItems st = []).

End LoaderRuns.

(** ** The top bar: the search box and the pay dropdown

    The state of the component besides the scroll phase, with the
    handlers of the search box, of the result rows and of the pay
    button, and what they do besides updating the state. *)

Module TopBarUI.
Import TopBar.

Record State := {
  (** [searchQuery], [searchableItems] and [selectedResultIndex] *)
  search : Selection.State;
  isScrolled : bool;
  isSearchFocused : bool;
  isSearchExpanded : bool;
  showPayDropdown : bool
}.

Definition initial (catalog : list SearchResult) : State :=
  {| search := Selection.initial catalog; isScrolled := false;
     isSearchFocused := false; isSearchExpanded := false;
     showPayDropdown := false |}.

Definition searchResults (st : State) : list SearchResult :=
  Selection.results (search st).

Definition selectedResultIndex (st : State) : Z :=
  Selection.selectedResultIndex (search st).

(** What the handlers read of the page: the path of the location, the
    scroll position, and for the id of an element the [top] of its
    bounding rectangle. *)
Record Page := {
  pathname : jsstring;
  scrollY : Z;
  elementTop : jsstring → option Z
}.

(** What a handler does besides updating the state. *)
Inductive Effect :=
| WindowOpen (url : jsstring)
| WindowScrollTo (top : Z)
| Navigate (to : jsstring)
| SessionStorageSet (key value : jsstring)
| PreventDefault
| Blur
| FocusInputLater.

(** [setSearchQuery('')] and [setIsSearchFocused(false)]. *)
Definition clearSearch (st : State) : State :=
  {| search := Selection.setSearchQuery [] (search st);
     isScrolled := isScrolled st; isSearchFocused := false;
     isSearchExpanded := isSearchExpanded st;
     showPayDropdown := showPayDropdown st |}.

(** The section of a result that
    [(type === 'section' || type === 'content') && section] lets
    through: the empty string is falsy. *)
Definition sectionOf (result : SearchResult) : option jsstring :=
  match type result, section result with
  | (TSection | TContent), Some s => if truthy s then Some s else None
  | _, _ => None
  end.

Definition handleSearchSelect (page : Page) (result : SearchResult)
    (st : State) : list Effect * State :=
  if startsWith (path result) (ofString "http") then
    ([WindowOpen (path result)], clearSearch st)
  else
    let effects :=
      match sectionOf result with
      | Some s =>
          if eqb (pathname page) (ofString "/")
             || eqb (path result) (ofString "/")
          then
            if eqb (pathname page) (ofString "/") then
              match elementTop page s with
              | Some top => [WindowScrollTo (top + scrollY page - 100)]
              | None => []
              end
            else
              [Navigate (ofString "/");
               SessionStorageSet (ofString "scrollToSection") s]
          else [Navigate (path result)]
      | None => [Navigate (path result)]
      end in
    (effects, clearSearch st).

(** [setIsSearchFocused(false)], [setIsSearchExpanded(false)] and
    [setSearchQuery('')]. *)
Definition collapseSearch (st : State) : State :=
  {| search := Selection.setSearchQuery [] (search st);
     isScrolled := isScrolled st; isSearchFocused := false;
     isSearchExpanded := false; showPayDropdown := showPayDropdown st |}.

Definition withSearch (s : Selection.State) (st : State) : State :=
  {| search := s; isScrolled := isScrolled st;
     isSearchFocused := isSearchFocused st;
     isSearchExpanded := isSearchExpanded st;
     showPayDropdown := showPayDropdown st |}.

(** The key handler; [None] when it throws, which reading [path] of an
    [undefined] result does. *)
Definition handleSearchKeyDown (page : Page) (key : Selection.Key)
    (st : State) : option (list Effect * State) :=
  match key with
  | Selection.ArrowDown | Selection.ArrowUp =>
      Some ([PreventDefault],
            withSearch (Selection.handleSearchKeyDown key (search st)) st)
  | Selection.Enter =>
      if decide (0 ≤ selectedResultIndex st) then
        match searchResults st !! Z.to_nat (selectedResultIndex st) with
        | Some result =>
            let '(effects, st') := handleSearchSelect page result st in
            Some (PreventDefault :: effects, st')
        | None => None
        end
      else Some ([], st)
  | Selection.Escape => Some ([Blur], collapseSearch st)
  | Selection.OtherKey => Some ([], st)
  end.

(** The [mousedown] listener of the document, by whether the target is
    in the search container and in the pay container. *)
Definition handleClickOutside (inSearch inPay : bool) (st : State) : State :=
  let st := if negb inSearch then collapseSearch st else st in
  if negb inPay then
    {| search := search st; isScrolled := isScrolled st;
       isSearchFocused := isSearchFocused st;
       isSearchExpanded := isSearchExpanded st; showPayDropdown := false |}
  else st.

Definition handleSearchIconClick (st : State) : list Effect * State :=
  ([FocusInputLater],
   {| search := search st; isScrolled := isScrolled st;
      isSearchFocused := isSearchFocused st; isSearchExpanded := true;
      showPayDropdown := showPayDropdown st |}).

Definition onFocus (st : State) : State :=
  {| search := search st; isScrolled := isScrolled st;
     isSearchFocused := true; isSearchExpanded := isSearchExpanded st;
     showPayDropdown := showPayDropdown st |}.

Definition handlePayClick (st : State) : list Effect * State :=
  if isScrolled st then
    ([PreventDefault],
     {| search := search st; isScrolled := isScrolled st;
        isSearchFocused := isSearchFocused st;
        isSearchExpanded := isSearchExpanded st;
        showPayDropdown := negb (showPayDropdown st) |})
  else ([], st).

(** The scroll listener: [setIsScrolled(window.scrollY > 100)]. *)
Definition handleScroll (y : Z) (st : State) : State :=
  {| search := search st; isScrolled := bool_decide (100 < y);
     isSearchFocused := isSearchFocused st;
     isSearchExpanded := isSearchExpanded st;
     showPayDropdown := showPayDropdown st |}.

(** What is rendered. *)
Definition dropdownShown (st : State) : bool :=
  isSearchExpanded st && isSearchFocused st
  && bool_decide (0 < length (searchResults st))%nat.

Definition payDropdownShown (st : State) : bool :=
  isScrolled st && showPayDropdown st.

Definition searchHidden (st : State) : bool :=
  isScrolled st && negb (isSearchExpanded st).

Inductive Event :=
| Change (value : jsstring)
| Focus
| KeyDown (page : Page) (key : Selection.Key)
| MouseEnterRow (index : nat)
| ClickRow (page : Page) (index : nat)
| MouseDown (inSearch inPay : bool)
| SearchIconClick
| PayClick
| Scroll (y : Z)
| CatalogLoaded (data : list SearchResult).

(** One event.  The rows exist only while the dropdown is shown; a
    handler that throws leaves the state as it was. *)
Definition step (st : State) (ev : Event) : State :=
  match ev with
  | Change value =>
      withSearch (Selection.setSearchQuery value (search st)) st
  | Focus => onFocus st
  | KeyDown page key =>
      match handleSearchKeyDown page key st with
      | Some (_, st') => st'
      | None => st
      end
  | MouseEnterRow index =>
      if dropdownShown st then
        match searchResults st !! index with
        | Some _ =>
            withSearch
              (Selection.setSelectedResultIndex (λ _, Z.of_nat index)
                 (search st)) st
        | None => st
        end
      else st
  | ClickRow page index =>
      if dropdownShown st then
        match searchResults st !! index with
        | Some result => (handleSearchSelect page result st).2
        | None => st
        end
      else st
  | MouseDown inSearch inPay => handleClickOutside inSearch inPay st
  | SearchIconClick => (handleSearchIconClick st).2
  | PayClick => (handlePayClick st).2
  | Scroll y => handleScroll y st
  | CatalogLoaded data =>
      withSearch (Selection.setSearchableItems data (search st)) st
  end.

Definition run (catalog : list SearchResult) (evs : list Event) : State :=
  foldl step (initial catalog) evs.

(** The search is closed: no query, no results, no selection, no
    dropdown. *)
Definition closed (st : State) : Prop :=
  Selection.searchQuery (search st) = []
  ∧ searchResults st = []
  ∧ selectedResultIndex st = -1
  ∧ dropdownShown st = false.

(** The effects that leave the page or open another. *)
Definition leaves (e : Effect) : bool :=
  match e with
  | WindowOpen _ | Navigate _ => true
  | _ => false
  end.

End TopBarUI.

(** ** Facts about the string operations *)

Module JsStringFacts.

Lemma eqb_true s q : eqb s q = true ↔ s = q.
Proof. unfold eqb. apply bool_decide_eq_true. Qed.

Lemma eqb_false s q : eqb s q = false ↔ s ≠ q.
Proof. unfold eqb. apply bool_decide_eq_false. Qed.

(** [startsWith] holds exactly of the strings that begin with [q]. *)
Lemma startsWith_prefix s q : startsWith s q = true ↔ q `prefix_of` s.
Proof.
  revert s. induction q as [|d q IH]; intros s; simpl.
  - split; [intros _; apply prefix_nil | done].
  - destruct s as [|c s].
    + split; [done | intros H; by apply prefix_nil_not in H].
    + rewrite andb_true_iff, N.eqb_eq, IH. split.
      * intros [-> H]. by apply prefix_cons.
      * intros H. split.
        -- symmetry. by eapply prefix_cons_inv_1.
        -- by eapply prefix_cons_inv_2.
Qed.

(** [includes] holds exactly of the strings with [q] as a contiguous
    part. *)
Lemma includes_infix s q : includes s q = true ↔ ∃ l r, s = l ++ q ++ r.
Proof.
  induction s as [|c s IH]; simpl.
  - rewrite orb_false_r, startsWith_prefix. split.
    + intros [r ->]. by exists [], r.
    + intros (l & r & H). symmetry in H.
      apply app_eq_nil in H as [-> H]. apply app_eq_nil in H as [-> _].
      apply prefix_nil.
  - rewrite orb_true_iff, IH.
    rewrite startsWith_prefix. split.
    + intros [[r ->] | (l & r & ->)].
      * by exists [], r.
      * by exists (c :: l), r.
    + intros ([|c' l] & r & H); simpl in H.
      * left. by exists r.
      * right. injection H as -> ->. by exists l, r.
Qed.

Lemma startsWith_refl s : startsWith s s = true.
Proof. by apply startsWith_prefix. Qed.

Lemma startsWith_includes s q : startsWith s q = true → includes s q = true.
Proof. intros H. destruct s; simpl in *; rewrite H; done. Qed.

(** *** Trimming *)

Lemma trimStart_nil s : trimStart s = [] ↔ blank s.
Proof.
  unfold blank. induction s as [|c s IH]; simpl.
  - split; [constructor | done].
  - destruct (isWhiteSpace c) eqn:E.
    + rewrite IH, Forall_cons. split; [done | by intros [_ ?]].
    + rewrite Forall_cons. split; [done | intros [? _]; congruence].
Qed.

Lemma trimStart_blank s : blank (trimStart s) ↔ blank s.
Proof.
  unfold blank. induction s as [|c s IH]; simpl; [done |].
  destruct (isWhiteSpace c) eqn:E; [| done].
  rewrite IH, Forall_cons. split; [done | by intros [_ ?]].
Qed.

(** The trimmed string is empty exactly when every code unit of the
    string is white space. *)
Lemma trim_nil s : trim s = [] ↔ blank s.
Proof.
  unfold trim, trimEnd.
  rewrite <- (trimStart_blank s).
  split.
  - intros H. apply (f_equal reverse) in H.
    rewrite reverse_involutive, reverse_nil in H.
    apply trimStart_nil in H. unfold blank in *.
    by rewrite Forall_reverse in H.
  - intros H. apply (Forall_reverse _ (trimStart s)) in H.
    apply trimStart_nil in H. by rewrite H.
Qed.

Lemma truthy_trim_false s : truthy (trim s) = false ↔ blank s.
Proof. rewrite <- trim_nil. by destruct (trim s). Qed.

Lemma truthy_trim_true s : truthy (trim s) = true ↔ ¬ blank s.
Proof. rewrite <- trim_nil. by destruct (trim s). Qed.

(** *** Case mapping *)

Ltac N_cases :=
  repeat match goal with
    | |- context [N.leb ?a ?b] => destruct (N.leb_spec a b); simpl; try lia
    | |- context [N.eqb ?a ?b] => destruct (N.eqb_spec a b); simpl; try lia
    end.

Lemma lowerUnit_idemp c : lowerUnit (lowerUnit c) = lowerUnit c.
Proof.
  unfold lowerUnit at 2. N_cases; unfold lowerUnit; N_cases; done.
Qed.

Lemma toLowerCase_idemp s : toLowerCase (toLowerCase s) = toLowerCase s.
Proof.
  unfold toLowerCase. rewrite <- list_fmap_compose.
  apply list_fmap_ext. intros _ c _. apply lowerUnit_idemp.
Qed.

Lemma isWhiteSpace_lowerUnit c : isWhiteSpace (lowerUnit c) = isWhiteSpace c.
Proof.
  unfold lowerUnit. N_cases; unfold isWhiteSpace; N_cases; done.
Qed.

Lemma blank_toLowerCase s : blank (toLowerCase s) ↔ blank s.
Proof.
  unfold blank, toLowerCase. rewrite Forall_fmap.
  apply Forall_proper; [| done]. intros c. simpl.
  by rewrite isWhiteSpace_lowerUnit.
Qed.

Lemma truthy_trim_toLowerCase s :
  truthy (trim (toLowerCase s)) = truthy (trim s).
Proof.
  destruct (truthy (trim s)) eqn:E.
  - apply truthy_trim_true. rewrite blank_toLowerCase.
    by apply truthy_trim_true.
  - apply truthy_trim_false. rewrite blank_toLowerCase.
    by apply truthy_trim_false.
Qed.

(** On ASCII strings, upper-casing does not change the lower-cased
    string. *)
Lemma lower_upper_ascii s :
  isAscii s → toLowerCase (toUpperCase s) = toLowerCase s.
Proof.
  unfold isAscii, toLowerCase, toUpperCase.
  induction 1 as [|c s Hc _ IH]; [done |].
  rewrite bind_cons, fmap_app, IH, fmap_cons. f_equal.
  unfold upperUnit. N_cases; simpl; f_equal; unfold lowerUnit; N_cases; lia.
Qed.

End JsStringFacts.

(** ** Facts about the sort *)

Section SortFacts.

Context {A : Type} (cmp : A → A → Z).

Lemma insertBy_Permutation x l : insertBy cmp x l ≡ₚ x :: l.
Proof.
  induction l as [|y l IH]; simpl; [done |].
  case_decide; [done |].
  rewrite IH. apply Permutation_swap.
Qed.

Lemma sort_Permutation l : sort cmp l ≡ₚ l.
Proof.
  induction l as [|x l IH]; simpl; [done |].
  by rewrite insertBy_Permutation, IH.
Qed.

Lemma sort_length l : length (sort cmp l) = length l.
Proof. by rewrite sort_Permutation. Qed.

(** The comparator orders by an integer key: [cmp] is [a.key - b.key]
    up to the sign of its result. *)
Context (key : A → Z) (Hcmp : ∀ a b, cmp a b ≤ 0 ↔ key a ≤ key b).

Local Abbreviation ascending := (StronglySorted (λ a b, key a ≤ key b)).

Lemma insertBy_sorted x l : ascending l → ascending (insertBy cmp x l).
Proof.
  induction 1 as [|y l Hl IH Hy]; simpl.
  - repeat constructor.
  - case_decide as Hxy.
    + apply Hcmp in Hxy. constructor; [by constructor |].
      constructor; [done |].
      eapply Forall_impl; [exact Hy |]. simpl. intros z Hz. lia.
    + rewrite Hcmp in Hxy. constructor; [done |].
      rewrite insertBy_Permutation. constructor; [lia | done].
Qed.

Lemma sort_sorted l : ascending (sort cmp l).
Proof.
  induction l as [|x l IH]; simpl; [constructor |].
  by apply insertBy_sorted.
Qed.

(** Stability: the elements of one key keep the order they had. *)
Lemma insertBy_stable k x l :
  filter (λ a, key a = k) (insertBy cmp x l)
  = filter (λ a, key a = k) (x :: l).
Proof.
  induction l as [|y l IH]; simpl; [done |].
  case_decide as Hxy; [done |].
  rewrite Hcmp in Hxy.
  rewrite !filter_cons in *.
  repeat case_decide; try lia; by rewrite IH.
Qed.

Lemma sort_stable k l :
  filter (λ a, key a = k) (sort cmp l) = filter (λ a, key a = k) l.
Proof.
  induction l as [|x l IH]; simpl; [done |].
  by rewrite insertBy_stable, !filter_cons, IH.
Qed.

End SortFacts.

Lemma StronglySorted_impl {A} (R1 R2 : relation A) (l : list A) :
  (∀ a b, R1 a b → R2 a b) → StronglySorted R1 l → StronglySorted R2 l.
Proof.
  intros HR. induction 1 as [|x l _ IH Hx]; constructor; [done |].
  eapply Forall_impl; [exact Hx | apply HR].
Qed.

Lemma insertBy_fmap {A B} (f : A → B) (cmp : B → B → Z) (x : A)
    (l : list A) :
  insertBy cmp (f x) (f <$> l) = f <$> insertBy (λ a b, cmp (f a) (f b)) x l.
Proof.
  induction l as [|y l IH]; simpl; [done |].
  case_decide; simpl; [done | by f_equal].
Qed.

Lemma sort_fmap {A B} (f : A → B) (cmp : B → B → Z) (l : list A) :
  sort cmp (f <$> l) = f <$> sort (λ a b, cmp (f a) (f b)) l.
Proof.
  induction l as [|x l IH]; [done |].
  change (sort cmp (f <$> x :: l))
    with (insertBy cmp (f x) (sort cmp (f <$> l))).
  rewrite IH. apply insertBy_fmap.
Qed.

(** A sorted list is determined by its elements of each key, in their
    order: the result of any stable sort is the one [sort] computes. *)
Lemma sorted_stable_unique {A} (key : A → Z) (l1 l2 : list A) :
  StronglySorted (λ a b, key a ≤ key b) l1 →
  StronglySorted (λ a b, key a ≤ key b) l2 →
  (∀ k, filter (λ a, key a = k) l1 = filter (λ a, key a = k) l2) →
  l1 = l2.
Proof.
  intros H1. revert l2.
  induction H1 as [|x l1 Hl1 IH Hx]; intros l2 H2 Hk.
  - destruct l2 as [|y l2]; [done |].
    specialize (Hk (key y)). rewrite filter_nil, filter_cons in Hk.
    by case_decide.
  - assert (Hin : x ∈ l2).
    { eapply (list_elem_of_filter (λ a, key a = key x)).
      rewrite <- Hk, filter_cons. case_decide; [left | done]. }
    destruct H2 as [|y l2 Hl2 Hy]; [by apply elem_of_nil in Hin |].
    assert (Hyin : y ∈ x :: l1).
    { eapply (list_elem_of_filter (λ a, key a = key y)).
      rewrite Hk, filter_cons. case_decide; [left | done]. }
    assert (Hkey : key x = key y).
    { apply elem_of_cons in Hin as [-> | Hin]; [done |].
      apply elem_of_cons in Hyin as [-> | Hyin]; [done |].
      rewrite Forall_forall in Hx, Hy.
      specialize (Hx _ Hyin). specialize (Hy _ Hin). lia. }
    pose proof (Hk (key x)) as Hkx.
    rewrite !filter_cons in Hkx.
    rewrite decide_True in Hkx by done. rewrite decide_True in Hkx by done.
    injection Hkx as -> Hkx. f_equal. apply IH; [done |].
    intros k. specialize (Hk k). rewrite !filter_cons in Hk.
    case_decide; [by injection Hk | done].
Qed.

(** Whatever algorithm the engine sorts with, a sorted and stable
    arrangement of the list is the one [sort] computes. *)
Lemma sort_unique {A} (cmp : A → A → Z) (key : A → Z) (l l' : list A) :
  (∀ a b, cmp a b ≤ 0 ↔ key a ≤ key b) →
  StronglySorted (λ a b, key a ≤ key b) l' →
  (∀ k, filter (λ a, key a = k) l' = filter (λ a, key a = k) l) →
  l' = sort cmp l.
Proof.
  intros Hcmp Hsorted Hstable.
  apply (sorted_stable_unique key); [done | by apply sort_sorted |].
  intros k. by rewrite Hstable, (sort_stable cmp key).
Qed.

(** ** The score table *)

Module Ranking.
Import TopBar JsStringFacts.

Lemma keywordsSome_true (p : jsstring → bool) (P : jsstring → Prop) it :
  (∀ s, p s = true ↔ P s) →
  keywordsSome (λ k, p (toLowerCase k)) it = true ↔ someKeyword P it.
Proof.
  intros Hp. unfold keywordsSome, someKeyword.
  destruct (keywords it) as [ks|]; [| split; [done | by intros (?&?&?&_)]].
  rewrite existsb_exists. split.
  - intros (k & Hk & Hpk). exists ks, k.
    by rewrite <- Hp, list_elem_of_In.
  - intros (ks' & k & [= <-] & Hk & HP). exists k.
    by rewrite Hp, <- list_elem_of_In.
Qed.

Lemma keywordsSome_false (p : jsstring → bool) (P : jsstring → Prop) it :
  (∀ s, p s = true ↔ P s) →
  keywordsSome (λ k, p (toLowerCase k)) it = false ↔ ¬ someKeyword P it.
Proof.
  intros Hp. rewrite <- (keywordsSome_true p P it Hp).
  by destruct (keywordsSome _ it).
Qed.

Lemma occursIn_prefix q s : q `prefix_of` s → occursIn q s.
Proof. intros [r ->]. by exists [], r. Qed.

Lemma someKeyword_impl (P Q : jsstring → Prop) it :
  (∀ s, P s → Q s) → someKeyword P it → someKeyword Q it.
Proof. intros H (ks & k & ? & ? & ?). exists ks, k. auto. Qed.

Lemma keywordEquals_iff query it :
  keywordsSome (λ k, eqb (toLowerCase k) query) it = true
  ↔ someKeyword (λ k, k = query) it.
Proof.
  apply (keywordsSome_true (λ s, eqb s query)). intros. apply eqb_true.
Qed.

Lemma keywordStartsWith_iff query it :
  keywordsSome (λ k, startsWith (toLowerCase k) query) it = true
  ↔ someKeyword (λ k, query `prefix_of` k) it.
Proof.
  apply (keywordsSome_true (λ s, startsWith s query)).
  intros. apply startsWith_prefix.
Qed.

Lemma keywordContains_iff query it :
  keywordsSome (λ k, includes (toLowerCase k) query) it = true
  ↔ someKeyword (λ k, occursIn query k) it.
Proof.
  apply (keywordsSome_true (λ s, includes s query)).
  intros. apply includes_infix.
Qed.

Ltac to_prop :=
  repeat match goal with
    | H : _ = false |- _ => apply not_true_iff_false in H
    end;
  rewrite ?eqb_true, ?startsWith_prefix, ?includes_infix,
    ?keywordEquals_iff, ?keywordStartsWith_iff, ?keywordContains_iff in *;
  fold (occursIn) in *.

(** The code's cascade of tests computes a score of the table. *)
Lemma matchScore_BaseScore query it : BaseScore query it (matchScore query it).
Proof.
  unfold matchScore.
  destruct (eqb _ query) eqn:E1;
    [to_prop; by apply LabelEquals |].
  destruct (startsWith _ query) eqn:E2;
    [to_prop; by apply LabelStartsWith |].
  destruct (includes _ query) eqn:E3;
    [to_prop; by apply LabelContains |].
  destruct (keywordsSome (λ k, eqb _ _) it) eqn:E4;
    [to_prop; by apply KeywordEquals |].
  destruct (keywordsSome (λ k, startsWith _ _) it) eqn:E5;
    [to_prop; by apply KeywordStartsWith |].
  destruct (keywordsSome (λ k, includes _ _) it) eqn:E6;
    to_prop; [by apply KeywordContains | by apply NoMatch].
Qed.

(** The table gives each item one score. *)
Lemma BaseScore_functional query it m n :
  BaseScore query it m → BaseScore query it n → m = n.
Proof.
  assert (Hp : ∀ s, s = query → query `prefix_of` s) by (by intros ? ->).
  assert (Ho : ∀ s, query `prefix_of` s → occursIn query s)
    by apply occursIn_prefix.
  pose proof (someKeyword_impl _ _ it Hp).
  pose proof (someKeyword_impl _ _ it Ho).
  destruct 1; destruct 1; try done; exfalso; naive_solver.
Qed.

Lemma BaseScore_matchScore query it n :
  BaseScore query it n ↔ matchScore query it = n.
Proof.
  split.
  - intros H. eapply BaseScore_functional; [| exact H].
    apply matchScore_BaseScore.
  - intros <-. apply matchScore_BaseScore.
Qed.

(** *** The ranking as a sort of the catalog *)

Lemma filter_fmap {A B} (f : A → B) (P : B → Prop) `{!∀ x, Decision (P x)}
    (l : list A) :
  filter P (f <$> l) = f <$> filter (λ a, P (f a)) l.
Proof.
  induction l as [|x l IH]; [done |].
  rewrite fmap_cons, !filter_cons, IH. by case_decide.
Qed.

Lemma filter_prefix {A} (P : A → Prop) `{!∀ x, Decision (P x)}
    (l1 l2 : list A) :
  l1 `prefix_of` l2 → filter P l1 `prefix_of` filter P l2.
Proof. intros [r ->]. rewrite filter_app. by eexists. Qed.

Lemma searchResults_blank q c : blank q → searchResults q c = [].
Proof.
  intros H. unfold searchResults.
  apply truthy_trim_false in H. by rewrite H.
Qed.

(** For a query that is not blank the result is the first eight items
    of the ranking for the lower-cased query. *)
Lemma searchResults_ranking q c :
  ¬ blank q → searchResults q c = take 8 (ranking (toLowerCase q) c).
Proof.
  intros H. unfold searchResults, slice0, scoredItems, ranking.
  apply truthy_trim_true in H. rewrite H. simpl. f_equal.
  rewrite filter_fmap, sort_fmap, <- list_fmap_compose.
  etrans; [by apply (list_fmap_ext _ (λ it, it)) | apply list_fmap_id].
Qed.

Section RankingFacts.

Context (query : jsstring) (items : list SearchResult).

Local Abbreviation cs := (combinedScore query).

Lemma ranking_Permutation :
  ranking query items ≡ₚ filter (λ it, 0 < cs it) items.
Proof. apply sort_Permutation. Qed.

Lemma ranking_elem_of it :
  it ∈ ranking query items ↔ 0 < cs it ∧ it ∈ items.
Proof. by rewrite ranking_Permutation, list_elem_of_filter. Qed.

Lemma ranking_descending :
  StronglySorted (λ a b, cs b ≤ cs a) (ranking query items).
Proof.
  unfold ranking.
  eapply StronglySorted_impl;
    [| apply (sort_sorted _ (λ a, - cs a)); intros; lia].
  simpl. intros. lia.
Qed.

Lemma ranking_stable k :
  filter (λ it, cs it = k) (ranking query items)
  = filter (λ it, cs it = k) (filter (λ it, 0 < cs it) items).
Proof.
  pose proof (sort_stable (λ a b : SearchResult, cs b - cs a)
                (λ a, - cs a)) as H.
  unfold ranking.
  rewrite (list_filter_iff _ (λ a, - cs a = - k)) by (intros; lia).
  rewrite H by (intros; lia).
  apply list_filter_iff. intros; lia.
Qed.

End RankingFacts.

(** *** The ranking as a prefix of the sorted catalog *)

Lemma filter_none {A} (P : A → Prop) `{!∀ x, Decision (P x)} (l : list A) :
  (∀ x, ¬ P x) → filter P l = [].
Proof.
  intros HP. induction l as [|x l IH]; [done |].
  rewrite filter_cons, IH. case_decide; [| done]. by destruct (HP x).
Qed.

Section SortedCatalog.

Context (query : jsstring) (items : list SearchResult).

Local Abbreviation cs := (combinedScore query).

Lemma sortedCatalog_Permutation : sortedCatalog query items ≡ₚ items.
Proof. apply sort_Permutation. Qed.

Lemma sortedCatalog_descending :
  StronglySorted (λ a b, cs b ≤ cs a) (sortedCatalog query items).
Proof.
  unfold sortedCatalog.
  eapply StronglySorted_impl;
    [| apply (sort_sorted _ (λ a, - cs a)); intros; lia].
  simpl. intros. lia.
Qed.

Lemma sortedCatalog_stable k :
  filter (λ it, cs it = k) (sortedCatalog query items)
  = filter (λ it, cs it = k) items.
Proof.
  unfold sortedCatalog.
  rewrite (list_filter_iff _ (λ a, - cs a = - k)) by (intros; lia).
  rewrite (sort_stable _ (λ a, - cs a)) by (intros; lia).
  apply list_filter_iff. intros; lia.
Qed.

(** The matching items come first in the sorted catalog. *)
Lemma sortedCatalog_split :
  sortedCatalog query items
  = ranking query items
    ++ sort (λ a b, cs b - cs a) (filter (λ it, ¬ 0 < cs it) items).
Proof.
  apply (sorted_stable_unique (λ a, - cs a)).
  - apply sort_sorted. intros; lia.
  - apply StronglySorted_app_2.
    + intros a b Ha Hb. apply ranking_elem_of in Ha as [Ha _].
      rewrite sort_Permutation, list_elem_of_filter in Hb. lia.
    + apply sort_sorted. intros; lia.
    + apply sort_sorted. intros; lia.
  - intros k. rewrite filter_app.
    unfold sortedCatalog, ranking.
    rewrite !(sort_stable _ (λ a, - cs a)) by (intros; lia).
    rewrite !list_filter_filter.
    destruct (decide (0 < - k)) as [Hk|Hk].
    + rewrite (filter_none (λ a, _ ∧ ¬ _)), app_nil_r by (intros; lia).
      apply list_filter_iff. intros; lia.
    + rewrite (filter_none (λ a, _ ∧ 0 < _)) by (intros; lia).
      apply list_filter_iff. intros; lia.
Qed.

Lemma ranking_prefix_sortedCatalog :
  ranking query items `prefix_of` sortedCatalog query items.
Proof. rewrite sortedCatalog_split. by eexists. Qed.

End SortedCatalog.

Lemma searchResults_prefix_ranking q c :
  searchResults q c `prefix_of` ranking (toLowerCase q) c.
Proof.
  destruct (decide (blank q)) as [H|H].
  - rewrite searchResults_blank by done. apply prefix_nil.
  - rewrite searchResults_ranking by done. apply prefix_take.
Qed.

End Ranking.

(** ** Properties of the ranking *)

Module RankingProperties.
Import TopBar JsStringFacts Ranking Catalog.

Lemma combinedScore_eq query it :
  combinedScore query it
  = if decide (0 < matchScore query it)
    then matchScore query it + priorityOr50 it
    else matchScore query it.
Proof. unfold combinedScore, scoreItem. simpl. by case_decide. Qed.

Lemma matchScore_nonneg query it : 0 ≤ matchScore query it.
Proof. destruct (matchScore_BaseScore query it); lia. Qed.

Lemma searchResults_subseteq_ranking q c it :
  it ∈ searchResults q c → it ∈ ranking (toLowerCase q) c.
Proof.
  destruct (searchResults_prefix_ranking q c) as [r ->].
  intros. apply elem_of_app. by left.
Qed.






(** C2.  The result has at most 8 items; each is an item of the catalog
    whose combined score is not 0; the scores descend; the returned
    items of one score are the first items of that score of the
    catalog, in catalog order; and the result is a prefix of the whole
    catalog sorted by descending score with ties in catalog order, the
    first 8 matching items of it when the trimmed query is not
    empty. *)
Theorem rank_top8_descending_stable (searchQuery : jsstring)
    (items : list SearchResult) :
  let cs := combinedScore (toLowerCase searchQuery) in
  let results := searchResults searchQuery items in
  (length results ≤ 8)%nat
  ∧ (∀ it, it ∈ results → it ∈ items ∧ cs it ≠ 0)
  ∧ StronglySorted (λ a b, cs b ≤ cs a) results
  ∧ (∀ k, filter (λ it, cs it = k) results
          `prefix_of` filter (λ it, cs it = k) items)
  ∧ (∃ full,
       full ≡ₚ items
       ∧ StronglySorted (λ a b, cs b ≤ cs a) full
       ∧ (∀ k, filter (λ it, cs it = k) full = filter (λ it, cs it = k) items)
       ∧ results `prefix_of` full)
  ∧ (trim searchQuery ≠ [] →
     length results
     = Nat.min 8 (length (filter (λ it, 0 < cs it) items))).
Proof.
  intros cs results.
  pose proof (searchResults_prefix_ranking searchQuery items) as Hpre.
  assert (Hfull : results
                  `prefix_of` sortedCatalog (toLowerCase searchQuery) items).
  { etrans; [exact Hpre | apply ranking_prefix_sortedCatalog]. }
  split; [| split; [| split; [| split; [| split]]]].
  - subst results. destruct (decide (blank searchQuery)) as [Hb|Hb].
    + rewrite searchResults_blank by done. simpl. lia.
    + rewrite searchResults_ranking, length_take by done. lia.
  - intros it Hin%searchResults_subseteq_ranking.
    apply ranking_elem_of in Hin as [Hpos Hin]. split; [done |].
    subst cs. simpl. lia.
  - destruct Hpre as [r Hr].
    pose proof (ranking_descending (toLowerCase searchQuery) items) as Hs.
    rewrite Hr in Hs. by apply StronglySorted_app_1_l in Hs.
  - intros k.
    rewrite <- (sortedCatalog_stable (toLowerCase searchQuery) items).
    by apply filter_prefix.
  - exists (sortedCatalog (toLowerCase searchQuery) items).
    split; [apply sortedCatalog_Permutation |].
    split; [apply sortedCatalog_descending |].
    split; [apply sortedCatalog_stable | done].
  - intros Hq. rewrite trim_nil in Hq. subst results.
    rewrite searchResults_ranking, length_take by done.
    by rewrite ranking_Permutation.
Qed.

Lemma rank_top8_descending_stable_witness :
  let searchQuery := ofString "a" in
  trim searchQuery ≠ []
  ∧ length (searchResults searchQuery SEARCHABLE_ITEMS) = 8%nat.
Proof.
  intros searchQuery.
  assert (Hq : trim searchQuery ≠ []) by (vm_compute; discriminate).
  split; [exact Hq |].
  destruct (rank_top8_descending_stable searchQuery SEARCHABLE_ITEMS)
    as (_ & _ & _ & _ & _ & Hlen).
  rewrite (Hlen Hq). vm_compute. reflexivity.
Defined.

(** *** The tiers *)

Lemma combinedScore_exact query it :
  exactLabelMatch query it →
  combinedScore query it = 1000 + priorityOr50 it.
Proof.
  intros H. rewrite combinedScore_eq.
  assert (matchScore query it = 1000) as ->
    by (apply BaseScore_matchScore; by constructor).
  done.
Qed.

Lemma combinedScore_partial query it :
  partialLabelMatch query it →
  300 + priorityOr50 it ≤ combinedScore query it ≤ 500 + priorityOr50 it.
Proof.
  intros [Hne Hocc]. rewrite combinedScore_eq.
  destruct (matchScore_BaseScore query it); try done;
    rewrite decide_True by lia; lia.
Qed.

Lemma combinedScore_label query it :
  labelMatch query it → 300 + priorityOr50 it ≤ combinedScore query it.
Proof.
  intros Hocc. rewrite combinedScore_eq.
  destruct (matchScore_BaseScore query it); try done;
    rewrite decide_True by lia; lia.
Qed.

Lemma combinedScore_keywordOnly query it :
  keywordOnlyMatch query it →
  100 + priorityOr50 it ≤ combinedScore query it ≤ 200 + priorityOr50 it.
Proof.
  intros [Hno Hkw]. rewrite combinedScore_eq.
  destruct (matchScore_BaseScore query it) as [H|? H|? ? H| | | |];
    try done; try (rewrite decide_True by lia; lia).
  - destruct Hno. apply occursIn_prefix. rewrite <- H. done.
  - destruct Hno. by apply occursIn_prefix.
Qed.

(** An item of the catalog with the greater score is in the result
    before the other, where the other is in the result. *)
Lemma rankedAbove_score (searchQuery : jsstring) (items : list SearchResult)
    (a b : SearchResult) :
  a ∈ items →
  combinedScore (toLowerCase searchQuery) b
    < combinedScore (toLowerCase searchQuery) a →
  rankedAbove searchQuery items a b.
Proof.
  intros Ha Hlt. split; [done |]. intros l1 l2 Hres.
  destruct (searchResults_prefix_ranking searchQuery items) as [r Hr].
  rewrite Hres, <- app_assoc in Hr. simpl in Hr.
  pose proof (ranking_descending (toLowerCase searchQuery) items) as Hs.
  assert (Hb : b ∈ ranking (toLowerCase searchQuery) items).
  { rewrite Hr. apply elem_of_app. right. left. }
  apply ranking_elem_of in Hb as [Hb _].
  assert (Ha' : a ∈ ranking (toLowerCase searchQuery) items).
  { apply ranking_elem_of. split; [lia | done]. }
  rewrite Hr in Hs, Ha'.
  apply StronglySorted_app_1_r, StronglySorted_cons in Hs as [Hs _].
  apply elem_of_app in Ha' as [Ha' | Ha']; [done |].
  apply elem_of_cons in Ha' as [-> | Ha']; [lia |].
  rewrite Forall_forall in Hs. specialize (Hs _ Ha'). simpl in Hs. lia.
Qed.

Lemma matchScore_le_1000 query it : matchScore query it ≤ 1000.
Proof. destruct (matchScore_BaseScore query it); lia. Qed.

(** With a priority of [exactPriority] the score is an integer of
    magnitude below 2^53, which the doubles of the code hold exactly. *)
Lemma combinedScore_exact_sum query it :
  exactPriority it → Z.abs (combinedScore query it) < 2 ^ 53.
Proof.
  unfold exactPriority. intros Hp. rewrite combinedScore_eq.
  pose proof (matchScore_nonneg query it).
  pose proof (matchScore_le_1000 query it).
  assert (Hpow : 2 ^ 53 = 9007199254740992) by reflexivity.
  rewrite Hpow in *. case_decide; lia.
Qed.

(** C3, within the gaps of the table and the range in which the sums of
    the code are exact.  In a catalog whose priorities, 50 when unset or
    0, are integers of magnitude up to 2^53 - 1001, every score is an
    integer of magnitude below 2^53.  In such a catalog an item whose
    label equals the query is ranked strictly above one whose label only
    starts with or contains it when the priority of the second exceeds
    that of the first by less than 500; and an item with a label match
    of any kind is ranked strictly above one that matches by keywords
    only when the priority of the second exceeds that of the first by
    less than 100. *)
Theorem rank_tiers_within_priority_gap (searchQuery : jsstring)
    (items : list SearchResult) (a b : SearchResult) :
  Forall exactPriority items →
  a ∈ items → b ∈ items →
  let query := toLowerCase searchQuery in
  (∀ it, it ∈ items → Z.abs (combinedScore query it) < 2 ^ 53)
  ∧ (exactLabelMatch query a → partialLabelMatch query b →
     priorityOr50 b - priorityOr50 a < 500 →
     rankedAbove searchQuery items a b)
  ∧ (labelMatch query a → keywordOnlyMatch query b →
     priorityOr50 b - priorityOr50 a < 100 →
     rankedAbove searchQuery items a b).
Proof.
  intros Hexact Ha Hb query. rewrite Forall_forall in Hexact.
  split; [| split].
  - intros it Hit. by apply combinedScore_exact_sum, Hexact.
  - intros Hea Hpb Hgap. apply rankedAbove_score; [done |].
    apply combinedScore_exact in Hea. apply combinedScore_partial in Hpb.
    fold query. lia.
  - intros Hla Hkb Hgap. apply rankedAbove_score; [done |].
    apply combinedScore_label in Hla. apply combinedScore_keywordOnly in Hkb.
    fold query. lia.
Qed.

Lemma not_occursIn q s : includes s q = false → ¬ occursIn q s.
Proof.
  intros H Hocc. apply includes_infix in Hocc. congruence.
Qed.

Lemma rank_tiers_within_priority_gap_witness :
  let searchQuery := ofString "Pay" in
  let a := plain (ofString "Pay") (Some 40) in
  let b := plain (ofString "Payment") (Some 100) in
  let c := withKeyword (ofString "Easy Setup") (ofString "pay") (Some 100) in
  Forall exactPriority [c; b; a]
  ∧ rankedAbove searchQuery [c; b; a] a b
  ∧ rankedAbove searchQuery [c; b; a] b c.
Proof.
  intros searchQuery a b c.
  assert (Ha : a ∈ [c; b; a]) by (do 2 right; left).
  assert (Hb : b ∈ [c; b; a]) by (right; left).
  assert (Hc : c ∈ [c; b; a]) by left.
  assert (Hexact : Forall exactPriority [c; b; a]).
  { repeat constructor; unfold exactPriority; vm_compute; discriminate. }
  assert (Hea : exactLabelMatch (toLowerCase searchQuery) a)
    by (vm_compute; reflexivity).
  assert (Hpb : partialLabelMatch (toLowerCase searchQuery) b).
  { split; [vm_compute; discriminate |].
    exists [], (ofString "ment"). vm_compute. reflexivity. }
  assert (Hkc : keywordOnlyMatch (toLowerCase searchQuery) c).
  { split; [apply not_occursIn; vm_compute; reflexivity |].
    exists [ofString "pay"], (ofString "pay").
    split; [reflexivity |]. split; [left |].
    exists [], []. vm_compute. reflexivity. }
  split; [exact Hexact |]. split.
  - apply (proj1 (proj2 (rank_tiers_within_priority_gap
                           searchQuery [c; b; a] a b Hexact Ha Hb)));
      [exact Hea | exact Hpb | vm_compute; reflexivity].
  - apply (proj2 (proj2 (rank_tiers_within_priority_gap
                           searchQuery [c; b; a] b c Hexact Hb Hc)));
      [exact (proj2 Hpb) | exact Hkc | vm_compute; reflexivity].
Defined.

(** C3 as stated holds whatever the priorities: with a priority of 600
    an item whose label only starts with the query comes before the
    item whose label equals it, and an item that matches by a keyword
    only comes before both. *)
Lemma rank_tiers_counterexample :
  let searchQuery := ofString "pay" in
  let query := toLowerCase searchQuery in
  let a := plain (ofString "Pay") (Some 50) in
  let b := plain (ofString "Payment") (Some 600) in
  let c := withKeyword (ofString "Easy Setup") (ofString "pay") (Some 1000) in
  exactLabelMatch query a
  ∧ partialLabelMatch query b
  ∧ keywordOnlyMatch query c
  ∧ searchResults searchQuery [a; b; c] = [c; b; a]
  ∧ ¬ rankedAbove searchQuery [a; b; c] a b
  ∧ ¬ rankedAbove searchQuery [a; b; c] b c.
Proof.
  intros searchQuery query a b c.
  split; [vm_compute; reflexivity |].
  split.
  { split; [vm_compute; discriminate |].
    exists [], (ofString "ment"). vm_compute. reflexivity. }
  split.
  { split; [apply not_occursIn; vm_compute; reflexivity |].
    exists [ofString "pay"], (ofString "pay").
    split; [reflexivity |]. split; [left |].
    exists [], []. vm_compute. reflexivity. }
  split; [vm_compute; reflexivity |].
  split; intros [Hlt _]; vm_compute in Hlt; discriminate.
Qed.

(** C6, for the queries of Basic Latin and Latin-1 characters, on which
    the case tables are the case maps of the code, and with the
    upper-cased query as the code treats it.  The result is a function
    of the query and the catalog.  For such a query the lower-cased
    query gives the result of the query, and the upper-cased query gives
    it too when lower-casing the upper-cased query gives the lower-cased
    query, as it does for every query of ASCII characters.  A query,
    of any characters, whose trimmed form is empty gives the empty
    result. *)
Theorem rank_case_insensitive (searchQuery : jsstring)
    (items : list SearchResult) :
  (isLatin1 searchQuery →
   searchResults (toLowerCase searchQuery) items
   = searchResults searchQuery items)
  ∧ (isLatin1 searchQuery →
     toLowerCase (toUpperCase searchQuery) = toLowerCase searchQuery →
     searchResults (toUpperCase searchQuery) items
     = searchResults searchQuery items)
  ∧ (isAscii searchQuery →
     searchResults (toUpperCase searchQuery) items
     = searchResults searchQuery items)
  ∧ (trim searchQuery = [] → searchResults searchQuery items = []).
Proof.
  assert (Hup :
            toLowerCase (toUpperCase searchQuery) = toLowerCase searchQuery →
                searchResults (toUpperCase searchQuery) items
                = searchResults searchQuery items).
  { intros H. unfold searchResults.
    rewrite <- (truthy_trim_toLowerCase (toUpperCase searchQuery)), H.
    by rewrite truthy_trim_toLowerCase. }
  split; [| split; [| split]].
  - intros _. unfold searchResults.
    by rewrite truthy_trim_toLowerCase, toLowerCase_idemp.
  - intros _. exact Hup.
  - intros H. by apply Hup, lower_upper_ascii.
  - intros H. unfold searchResults. by rewrite H.
Qed.

Lemma rank_case_insensitive_witness :
  let searchQuery := ofString "Pay" in
  isAscii searchQuery
  ∧ isLatin1 searchQuery
  ∧ toLowerCase (toUpperCase searchQuery) = toLowerCase searchQuery
  ∧ searchResults (ofString "pay") SEARCHABLE_ITEMS
    = searchResults searchQuery SEARCHABLE_ITEMS
  ∧ searchResults (toUpperCase searchQuery) SEARCHABLE_ITEMS
    = searchResults searchQuery SEARCHABLE_ITEMS
  ∧ searchResults (ofString "PAY") SEARCHABLE_ITEMS
    = searchResults searchQuery SEARCHABLE_ITEMS
  ∧ trim (ofString "  ") = []
  ∧ searchResults (ofString "  ") SEARCHABLE_ITEMS = [].
Proof.
  intros searchQuery.
  assert (Ha : isAscii searchQuery).
  { repeat constructor. }
  assert (Hl : isLatin1 searchQuery).
  { repeat constructor. }
  assert (Hu : toLowerCase (toUpperCase searchQuery) = toLowerCase searchQuery)
    by (vm_compute; reflexivity).
  assert (Hb : trim (ofString "  ") = []) by (vm_compute; reflexivity).
  split; [exact Ha |]. split; [exact Hl |]. split; [exact Hu |].
  split; [| split; [| split; [| split; [exact Hb |]]]].
  - exact (proj1 (rank_case_insensitive searchQuery SEARCHABLE_ITEMS) Hl).
  - exact (proj1 (proj2 (rank_case_insensitive searchQuery SEARCHABLE_ITEMS))
             Hl Hu).
  - exact (proj1 (proj2 (proj2
             (rank_case_insensitive searchQuery SEARCHABLE_ITEMS))) Ha).
  - exact (proj2 (proj2 (proj2
             (rank_case_insensitive (ofString "  ") SEARCHABLE_ITEMS))) Hb).
Defined.

(** C6 as stated takes every query: the query of the one letter U+00DF
    finds the label "Straße", its upper-cased form "SS" does not. *)
Lemma rank_case_insensitive_counterexample :
  let searchQuery := [223%N] in
  let items := [plain [83; 116; 114; 97; 223; 101]%N None] in
  toUpperCase searchQuery = ofString "SS"
  ∧ searchResults searchQuery items = items
  ∧ searchResults (toUpperCase searchQuery) items = []
  ∧ searchResults (toUpperCase searchQuery) items
    ≠ searchResults searchQuery items.
Proof. vm_compute. repeat split; try discriminate. Qed.

End RankingProperties.

(** ** Properties of the selection *)

Module SelectionProperties.
Import TopBar Selection.

Lemma results_setSelectedResultIndex f st :
  results (setSelectedResultIndex f st) = results st.
Proof. reflexivity. Qed.

Lemma inRange_recompute query items st : inRange (recompute query items st).
Proof. unfold inRange. simpl. lia. Qed.

Lemma inRange_setSearchQuery v st :
  inRange st → inRange (setSearchQuery v st).
Proof.
  intros H. unfold setSearchQuery.
  case_decide; [done | apply inRange_recompute].
Qed.

Lemma inRange_handleSearchKeyDown key st :
  inRange st → inRange (handleSearchKeyDown key st).
Proof.
  intros H. destruct key; simpl; try done.
  - unfold inRange in *. rewrite results_setSelectedResultIndex. simpl.
    case_decide; lia.
  - unfold inRange in *. rewrite results_setSelectedResultIndex. simpl.
    case_decide; lia.
  - case_decide; [| done]. by apply inRange_setSearchQuery.
  - by apply inRange_setSearchQuery.
Qed.

Lemma inRange_step st ev : inRange st → inRange (step st ev).
Proof.
  intros H. destruct ev; simpl.
  - by apply inRange_setSearchQuery.
  - by apply inRange_handleSearchKeyDown.
  - case_decide; [| done].
    unfold inRange. rewrite results_setSelectedResultIndex. simpl. lia.
  - case_decide; [| done]. by apply inRange_setSearchQuery.
  - by apply inRange_setSearchQuery.
  - apply inRange_recompute.
Qed.

Lemma inRange_run catalog evs : inRange (run catalog evs).
Proof.
  unfold run. induction evs as [|ev evs IH] using rev_ind.
  - unfold inRange. simpl. lia.
  - rewrite foldl_snoc. by apply inRange_step.
Qed.

Lemma setSelectedResultIndex_same f st :
  f (selectedResultIndex st) = selectedResultIndex st →
  setSelectedResultIndex f st = st.
Proof.
  intros H. destruct st. unfold setSelectedResultIndex. simpl in *.
  by rewrite H.
Qed.

(** Only a recomputation gives the result array a new identity. *)
Lemma step_new_results st ev :
  searchResultsId (step st ev) ≠ searchResultsId st →
  selectedResultIndex (step st ev) = -1.
Proof.
  destruct ev as [v| [] | i | i | |data]; simpl;
    unfold handleSearchSelect, setSearchQuery;
    repeat case_decide; simpl; done.
Qed.

(** C5.  In every state the component reaches, the selected index is
    between -1 and the last index of the results.  ArrowDown adds one
    while the index is below the last index and changes nothing at the
    last index; ArrowUp subtracts one while the index is above -1 and
    changes nothing at -1; and an event that gives the results a new
    identity, as every change of the query does, leaves the index
    at -1. *)
Theorem selection_index_in_range (catalog : list SearchResult)
    (evs : list Event) :
  let st := run catalog evs in
  let i := selectedResultIndex st in
  let last := Z.of_nat (length (results st)) - 1 in
  -1 ≤ i ≤ last
  ∧ selectedResultIndex (handleSearchKeyDown ArrowDown st)
    = (if decide (i < last) then i + 1 else i)
  ∧ (i = last → handleSearchKeyDown ArrowDown st = st)
  ∧ selectedResultIndex (handleSearchKeyDown ArrowUp st)
    = (if decide (-1 < i) then i - 1 else i)
  ∧ (i = -1 → handleSearchKeyDown ArrowUp st = st)
  ∧ (∀ ev, searchResultsId (step st ev) ≠ searchResultsId st →
       selectedResultIndex (step st ev) = -1)
  ∧ (∀ v, v ≠ searchQuery st →
       searchResultsId (step st (Change v)) ≠ searchResultsId st
       ∧ selectedResultIndex (step st (Change v)) = -1).
Proof.
  intros st i last.
  pose proof (inRange_run catalog evs) as Hr.
  fold st in Hr. unfold inRange in Hr. fold i last in Hr.
  split; [done |].
  split; [reflexivity |].
  split.
  { intros Hi. apply setSelectedResultIndex_same.
    fold i last. case_decide; lia. }
  split.
  { simpl. fold i. repeat case_decide; lia. }
  split.
  { intros Hi. apply setSelectedResultIndex_same.
    fold i. case_decide; lia. }
  split; [apply step_new_results |].
  intros v Hv. simpl. unfold setSearchQuery.
  rewrite decide_False by done. simpl. split; [lia | done].
Qed.

Lemma selection_index_in_range_witness :
  let st := run Catalog.SEARCHABLE_ITEMS
              [Change (ofString "legal"); KeyDown ArrowDown] in
  selectedResultIndex st = 0
  ∧ Z.of_nat (length (results st)) - 1 = 0
  ∧ handleSearchKeyDown ArrowDown st = st
  ∧ selectedResultIndex (step st (Change (ofString "legal "))) = -1.
Proof.
  intros st.
  assert (Hi : selectedResultIndex st = 0) by (vm_compute; reflexivity).
  assert (Hl : Z.of_nat (length (results st)) - 1 = 0)
    by (vm_compute; reflexivity).
  destruct (selection_index_in_range Catalog.SEARCHABLE_ITEMS
              [Change (ofString "legal"); KeyDown ArrowDown])
    as (_ & _ & Hdown & _ & _ & _ & Hchange).
  split; [exact Hi |]. split; [exact Hl |]. split.
  - apply Hdown. fold st. rewrite Hi, Hl. reflexivity.
  - apply Hchange. vm_compute. discriminate.
Defined.

End SelectionProperties.

(** ** Properties of the section tracking *)

Module SectionTracking.
Import UseScrollToSection.

Lemma StronglySorted_filter {A} (R : relation A) (P : A → Prop)
    `{!∀ x, Decision (P x)} (l : list A) :
  StronglySorted R l → StronglySorted R (filter P l).
Proof.
  induction 1 as [|x l _ IH Hx]; [constructor |].
  rewrite filter_cons. case_decide; [| done].
  constructor; [done |].
  rewrite Forall_forall in *. intros y Hy%list_elem_of_filter. apply Hx, Hy.
Qed.

(** The walk ends on the last entry that the scroll position has
    reached, on "home" when there is none. *)
Lemma walk_last scrollPosition entries :
  walk scrollPosition entries
  = default "home"%string
      (section <$> last (filter (λ e, offsetTop e ≤ scrollPosition) entries)).
Proof.
  unfold walk. generalize "home"%string.
  induction entries as [|e l IH]; intros cur; [done |].
  simpl. rewrite IH, filter_cons.
  case_decide; [| done].
  rewrite last_cons. by destruct (last (filter _ l)).
Qed.

Lemma elem_of_orderedSections w e :
  e ∈ orderedSections w
  ↔ section e ∈ trackedSections
    ∧ document w !! section e = Some (offsetTop e).
Proof.
  unfold orderedSections.
  rewrite sort_Permutation, list_elem_of_omap. unfold lookupSection. split.
  - intros (s & Hs & He). destruct (document w !! s) eqn:E; [| done].
    injection He as <-. by simpl.
  - intros [Hs He]. exists (section e). split; [done |].
    rewrite He. by destruct e.
Qed.

Lemma orderedSections_ascending w :
  StronglySorted (λ a b, offsetTop a ≤ offsetTop b) (orderedSections w).
Proof. apply sort_sorted. intros; lia. Qed.

(** The sections the handler can make active. *)
Lemma handleScroll_cases w activeSection :
  handleScroll w activeSection = "home"%string
  ∨ ∃ e, handleScroll w activeSection = section e
         ∧ 50 ≤ scrollY w
         ∧ last (filter (λ e, offsetTop e ≤ scrollY w + 150)
                   (orderedSections w)) = Some e.
Proof.
  unfold handleScroll. case_decide; [by left |].
  rewrite walk_last.
  destruct (last _) as [e|] eqn:E; [| by left].
  right. exists e. split; [done |]. split; [lia | done].
Qed.

(** C4.  Below a scroll position of 50 the handler sets "home".  From
    50 on it sets "home" when no tracked section of the document has an
    offset of at most the scroll position plus 150, and otherwise a
    tracked section of the document with such an offset that no other
    such section lies below: the last one in ascending order of offset.
    The tracked sections that the document does not have are not among
    the ordered sections. *)
Theorem handleScroll_active_section (w : Window) (activeSection : string) :
  let result := handleScroll w activeSection in
  (scrollY w < 50 → result = "home"%string)
  ∧ (50 ≤ scrollY w → (∀ s top, ¬ reached w s top) → result = "home"%string)
  ∧ (50 ≤ scrollY w → ∀ s top, reached w s top →
       ∃ top', reached w result top'
               ∧ ∀ s'' top'', reached w s'' top'' → top'' ≤ top')
  ∧ (50 ≤ scrollY w →
       result = default "home"%string
                  (section <$> last (filter (λ e, offsetTop e ≤ scrollY w + 150)
                                       (orderedSections w))))
  ∧ StronglySorted (λ a b, offsetTop a ≤ offsetTop b) (orderedSections w)
  ∧ (∀ e, e ∈ orderedSections w
          ↔ section e ∈ trackedSections
            ∧ document w !! section e = Some (offsetTop e)).
Proof.
  intros result.
  assert (Hwalk : 50 ≤ scrollY w →
    result = default "home"%string
               (section <$> last (filter (λ e, offsetTop e ≤ scrollY w + 150)
                                    (orderedSections w)))).
  { intros Hy. subst result. unfold handleScroll.
    rewrite decide_False by lia. apply walk_last. }
  assert (Hin : ∀ s top, reached w s top →
    {| section := s; offsetTop := top |}
    ∈ filter (λ e, offsetTop e ≤ scrollY w + 150) (orderedSections w)).
  { intros s top (Hs & Hdoc & Htop).
    apply list_elem_of_filter. split; [done |].
    by apply elem_of_orderedSections. }
  split; [| split; [| split; [| split; [| split]]]].
  - intros Hy. subst result. unfold handleScroll. by rewrite decide_True.
  - intros Hy Hnone. rewrite Hwalk by done.
    destruct (last _) as [e|] eqn:E; [| done].
    apply last_Some_elem_of, list_elem_of_filter in E as [Htop He].
    apply elem_of_orderedSections in He as [Hs Hdoc].
    by destruct (Hnone (section e) (offsetTop e)).
  - intros Hy s top Hreached. rewrite Hwalk by done.
    pose proof (Hin _ _ Hreached) as Hne.
    destruct (last _) as [e|] eqn:E.
    2: { apply last_None in E. rewrite E in Hne. by apply elem_of_nil in Hne. }
    simpl. exists (offsetTop e).
    pose proof E as Hl. apply last_Some in Hl as [l' Hl'].
    apply last_Some_elem_of, list_elem_of_filter in E as [Htop He].
    apply elem_of_orderedSections in He as [Hs Hdoc].
    split; [done |].
    intros s'' top'' Hr. apply Hin in Hr. rewrite Hl' in Hr.
    pose proof (StronglySorted_filter _ (λ e, offsetTop e ≤ scrollY w + 150)
                  _ (orderedSections_ascending w)) as Hsorted.
    rewrite Hl' in Hsorted.
    apply elem_of_app in Hr as [Hr | Hr].
    + apply (StronglySorted_app_1_elem_of _ _ _ _ e Hsorted) in Hr;
        [done | left].
    + apply list_elem_of_singleton in Hr. rewrite <- Hr. done.
  - exact Hwalk.
  - apply orderedSections_ascending.
  - apply elem_of_orderedSections.
Qed.

Lemma handleScroll_active_section_witness :
  let doc : gmap string Z :=
    {[ "operator-portal"%string := 800; "mobile-app"%string := 1600 ]} in
  let top := {| scrollY := 10; document := doc |} in
  let below := {| scrollY := 900; document := doc |} in
  handleScroll top "mobile-app"%string = "home"%string
  ∧ (∃ top', reached below (handleScroll below "home"%string) top'
             ∧ ∀ s'' top'', reached below s'' top'' → top'' ≤ top').
Proof.
  intros doc top below. split.
  - apply (proj1 (handleScroll_active_section top "mobile-app"%string)).
    simpl. lia.
  - apply (proj1 (proj2 (proj2
             (handleScroll_active_section below "home"%string)))
             ltac:(simpl; lia) "operator-portal"%string 800).
    split; [left |]. split; [vm_compute; reflexivity | simpl; lia].
Defined.

Lemma handleScroll_allowlist w activeSection :
  handleScroll w activeSection
  ∈ ["home"%string; "operator-portal"%string; "mobile-app"%string].
Proof.
  destruct (handleScroll_cases w activeSection) as [-> | (e & -> & _ & E)];
    [left |].
  apply last_Some_elem_of, list_elem_of_filter in E as [_ He].
  apply elem_of_orderedSections in He as [Hs _].
  by right.
Qed.

(** C10.  The active section is "home" at first, and after any scroll
    events, whatever the offsets and whichever tracked elements the
    document has at each, it is "home", "operator-portal" or
    "mobile-app". *)
Theorem activeSection_allowlist (ws : list Window) :
  run [] = "home"%string
  ∧ run ws ∈ ["home"%string; "operator-portal"%string; "mobile-app"%string].
Proof.
  split; [reflexivity |].
  unfold run. destruct ws as [|w ws _] using rev_ind; [left |].
  rewrite foldl_snoc. apply handleScroll_allowlist.
Qed.

End SectionTracking.

(** ** Properties of the catalog load *)

Module LoaderProperties.
Import TopBar Loader.

Lemma searchResults_empty_catalog q : searchResults q [] = [].
Proof. unfold searchResults. by destruct (negb _). Qed.

(** After the component is torn down no event changes the catalog. *)
Lemma step_unmounted st ev :
  isMounted st = false →
  isMounted (step st ev) = false
  ∧ searchableItems (step st ev) = searchableItems st.
Proof.
  intros H. unfold step.
  destruct ev as [[|status body]| |], (phase st) as [|[data|]|];
    simpl; try done.
  - by destruct (negb (ok status)).
  - by rewrite H.
Qed.

Lemma run_unmounted st evs :
  isMounted st = false → searchableItems (run st evs) = searchableItems st.
Proof.
  unfold run. revert st. induction evs as [|ev evs IH]; intros st H; [done |].
  simpl. destruct (step_unmounted st ev H) as [Hm Hs].
  by rewrite IH, Hs.
Qed.

(** Once the load is over no event changes the catalog or logs. *)
Lemma step_done st ev :
  phase st = Done →
  phase (step st ev) = Done
  ∧ searchableItems (step st ev) = searchableItems st
  ∧ console (step st ev) = console st.
Proof.
  intros H. unfold step. rewrite H.
  by destruct ev as [[|status body]| |].
Qed.

Lemma run_done st evs :
  phase st = Done →
  searchableItems (run st evs) = searchableItems st
  ∧ console (run st evs) = console st.
Proof.
  unfold run. revert st. induction evs as [|ev evs IH]; intros st H; [done |].
  simpl. destruct (step_done st ev H) as (Hp & Hs & Hc).
  destruct (IH _ Hp) as [-> ->]. done.
Qed.

(** A failed fetch ends the load with one error logged. *)
Lemma step_failed st r :
  phase st = AwaitingFetch → failed r →
  phase (step st (FetchSettled r)) = Done
  ∧ searchableItems (step st (FetchSettled r)) = searchableItems st
  ∧ ∃ e, console (step st (FetchSettled r)) = console st ++ [e].
Proof.
  intros Hp Hf. unfold step. rewrite Hp.
  destruct r as [|status body]; simpl in *.
  - eauto.
  - unfold ok. rewrite bool_decide_eq_false_2 by done. simpl. eauto.
Qed.

Lemma run_cons st ev evs : run st (ev :: evs) = run (step st ev) evs.
Proof. reflexivity. Qed.

Lemma run_app st evs1 evs2 : run st (evs1 ++ evs2) = run (run st evs1) evs2.
Proof. apply foldl_app. Qed.

Lemma unmount_isMounted st : isMounted (step st Unmount) = false.
Proof. unfold step. by destruct (phase st). Qed.

(** C7.  When the fetch fails, by a network error or a status outside
    200-299, the error is logged, the catalog stays empty whatever
    happens next, and every search gives no results.  When the
    component is torn down, at the start or at any later point, the
    catalog stays what it was then: data that arrives afterwards is
    dropped. *)
Theorem catalog_fetch_failure_and_teardown :
  (∀ r evs, failed r →
     let st := run initial (FetchSettled r :: evs) in
     searchableItems st = []
     ∧ (∃ e, console st = [e])
     ∧ ∀ q, searchResults q (searchableItems st) = [])
  ∧ (∀ evs, searchableItems (run initial (Unmount :: evs)) = [])
  ∧ (∀ evs1 evs2,
       searchableItems (run initial (evs1 ++ Unmount :: evs2))
       = searchableItems (run initial evs1)).
Proof.
  split; [| split].
  - intros r evs Hf st.
    destruct (step_failed initial r eq_refl Hf) as (Hp & Hs & e & He).
    destruct (run_done _ evs Hp) as [Hs' Hc'].
    assert (Hitems : searchableItems st = []).
    { subst st. by rewrite run_cons, Hs', Hs. }
    split; [done |]. split.
    + exists e. subst st. by rewrite run_cons, Hc', He.
    + intros q. rewrite Hitems. apply searchResults_empty_catalog.
  - intros evs. rewrite run_cons.
    by rewrite run_unmounted by apply unmount_isMounted.
  - intros evs1 evs2. rewrite run_app, run_cons.
    rewrite run_unmounted by apply unmount_isMounted.
    unfold step. by destruct (phase _).
Qed.

Lemma catalog_fetch_failure_and_teardown_witness :
  let r := Response 404 None in
  failed r
  ∧ searchableItems (run initial [FetchSettled r; JsonSettled]) = []
  ∧ searchableItems
      (run initial [Unmount;
                    FetchSettled (Response 200 (Some Catalog.SEARCHABLE_ITEMS));
                    JsonSettled]) = [].
Proof.
  intros r.
  assert (Hf : failed r) by (simpl; lia).
  split; [exact Hf |]. split.
  - exact (proj1 (proj1 catalog_fetch_failure_and_teardown
                    r [JsonSettled] Hf)).
  - exact (proj1 (proj2 catalog_fetch_failure_and_teardown) _).
Defined.

(** A load that succeeds while the component is mounted sets the
    catalog. *)
Lemma catalog_loaded status data :
  200 ≤ status ≤ 299 →
  searchableItems
    (run initial [FetchSettled (Response status (Some data)); JsonSettled])
  = data.
Proof.
  intros H. unfold run, step, ok. simpl.
  by rewrite bool_decide_eq_true_2.
Qed.

End LoaderProperties.

(** ** Properties of the scroll phase *)

Module ScrollPhaseProperties.
Import ScrollPhase.

(** C8, where the code departs from it: at a page that is scrolled when
    the component mounts.  The first run of the phase effect changes
    nothing, but the scroll detection of the same mount sets
    [isScrolled], the effect runs again, and the phase is [hide] with
    the timeout pending, until it falls due. *)
Theorem scrollPhase_mount_scrolled :
  scrollPhase (mount 500) = hide
  ∧ timeout (mount 500) = Some 450
  ∧ scrollPhase (elapse 450 (mount 500)) = idle.
Proof. vm_compute. repeat split. Qed.

(** So it is for every page scrolled past the threshold at the mount. *)
Lemma scrollPhase_mount_past_threshold scrollY :
  100 < scrollY →
  scrollPhase (mount scrollY) = hide ∧ timeout (mount scrollY) = Some 450.
Proof.
  intros H. unfold mount, handleScroll, setIsScrolled. simpl.
  by rewrite bool_decide_eq_true_2 by lia.
Qed.

(** Mounting at a page that is not scrolled leaves the phase [idle]. *)
Lemma scrollPhase_mount_top scrollY :
  scrollY ≤ 100 → mount scrollY =
    {| isScrolled := false; scrollPhase := idle; hasMounted := true;
       timeout := None; now := 0 |}.
Proof.
  intros H. unfold mount, handleScroll, setIsScrolled. simpl.
  by rewrite bool_decide_eq_false_2 by lia.
Qed.

(** After the mount, crossing the threshold downwards sets [hide] and
    upwards sets [show], with a timeout 450 ms later; a scroll that
    does not cross changes nothing. *)
Lemma scrollPhase_crossing scrollY st :
  hasMounted st = true →
  let st' := handleScroll scrollY st in
  (isScrolled st = false → 100 < scrollY →
     scrollPhase st' = hide ∧ timeout st' = Some (now st + 450))
  ∧ (isScrolled st = true → scrollY ≤ 100 →
     scrollPhase st' = show ∧ timeout st' = Some (now st + 450))
  ∧ (isScrolled st = bool_decide (100 < scrollY) → st' = st).
Proof.
  intros Hm st'. subst st'. unfold handleScroll, setIsScrolled, phaseEffect.
  split; [| split].
  - intros Hs Hy. rewrite Hs, bool_decide_eq_true_2 by done.
    simpl. by rewrite Hm.
  - intros Hs Hy. rewrite Hs, bool_decide_eq_false_2 by lia.
    simpl. by rewrite Hm.
  - intros ->. by rewrite decide_True.
Qed.

(** The phase is [idle] again once the timeout is due. *)
Lemma scrollPhase_reverts ms st due :
  timeout st = Some due → due ≤ now st + ms →
  scrollPhase (elapse ms st) = idle ∧ timeout (elapse ms st) = None.
Proof.
  intros Ht Hd. unfold elapse. rewrite Ht.
  by rewrite decide_True.
Qed.

End ScrollPhaseProperties.

(** ** The examples of the design document *)

Module Examples.
Import TopBar Catalog.

Example rank_app :
  id <$> searchResults (ofString "App") SEARCHABLE_ITEMS
  = ofString <$> ["app-terms"; "app-privacy"; "get-app"; "mobile-app"]%string.
Proof. vm_compute. reflexivity. Qed.

Example rank_operator_scores :
  combinedScore (ofString "operator")
    <$> searchResults (ofString "Operator") SEARCHABLE_ITEMS
  = [585; 580; 570; 560; 560].
Proof. vm_compute. reflexivity. Qed.

Example rank_pay :
  let payNow := plain (ofString "Pay Now") (Some 90) in
  let setup := withKeyword (ofString "Easy Setup") (ofString "pay") (Some 50) in
  searchResults (ofString "pay") [setup; payNow] = [payNow; setup]
  ∧ combinedScore (ofString "pay") payNow = 590.
Proof. vm_compute. split; reflexivity. Qed.

Example active_section_offsets :
  let doc : gmap string Z :=
    {[ "operator-portal"%string := 800; "mobile-app"%string := 1600 ]} in
  let active y := UseScrollToSection.handleScroll
                    {| UseScrollToSection.scrollY := y;
                       UseScrollToSection.document := doc |} "home"%string in
  active 900 = "operator-portal"%string
  ∧ active 1700 = "mobile-app"%string
  ∧ active 10 = "home"%string.
Proof. vm_compute. repeat split. Qed.

End Examples.

(** ** Properties of the feature grid *)

Module FeatureGridProperties.
Import FeatureGrid.

Lemma smallPositions_cells (r k : nat) :
  {| row := r; col := k |} ∈ smallPositions
  ↔ (1 ≤ r ≤ 6)%nat ∧ (1 ≤ k ≤ 10)%nat
    ∧ ¬ ((4 ≤ k ≤ 7)%nat ∧ (2 ≤ r ≤ 5)%nat).
Proof.
  unfold smallPositions, ROWS, COLS. rewrite list_elem_of_bind. split.
  - intros (r' & Hin & Hr%elem_of_seq).
    apply list_elem_of_bind in Hin as (k' & Hin & Hk%elem_of_seq).
    unfold inCenterCols, inCenterRows in *.
    destruct (negb _) eqn:E; [| by apply elem_of_nil in Hin].
    apply list_elem_of_singleton in Hin. injection Hin as -> ->.
    apply negb_true_iff, andb_false_iff in E.
    rewrite !andb_false_iff, !bool_decide_eq_false in E. lia.
  - intros (Hr & Hk & Hc). exists r. split; [| apply elem_of_seq; simpl; lia].
    apply list_elem_of_bind. exists k. split; [| apply elem_of_seq; simpl; lia].
    unfold inCenterCols, inCenterRows.
    destruct (negb _) eqn:E; [left |].
    apply negb_false_iff in E.
    rewrite !andb_true_iff, !bool_decide_eq_true in E. lia.
Qed.

(** The small positions are the cells of the 10x6 grid outside the
    centre block of columns 4-7 and rows 2-5, each once, in row-major
    order: 44 positions. *)
Theorem smallPositions_outside_centre :
  (∀ r k, {| row := r; col := k |} ∈ smallPositions
          ↔ (1 ≤ r ≤ ROWS)%nat ∧ (1 ≤ k ≤ COLS)%nat
            ∧ ¬ ((4 ≤ k ≤ 7)%nat ∧ (2 ≤ r ≤ 5)%nat))
  ∧ NoDup smallPositions
  ∧ length smallPositions = 44%nat
  ∧ StronglySorted
      (λ p q, (row p < row q)%nat ∨ (row p = row q ∧ col p < col q)%nat)
      smallPositions.
Proof.
  split; [apply smallPositions_cells |].
  split; [by apply (bool_decide_unpack _) |].
  split; [reflexivity |].
  unfold smallPositions. vm_compute.
  repeat (constructor; [| repeat (constructor; [simpl; lia |]); constructor]).
  constructor.
Qed.

Lemma smallPositions_NoDup : NoDup smallPositions.
Proof. by apply (bool_decide_unpack _). Qed.

Lemma largePositions_NoDup : NoDup largePositions.
Proof. by apply (bool_decide_unpack _). Qed.

Lemma elem_of_largePositions pos :
  pos ∈ largePositions
  ↔ (row pos = 2 ∨ row pos = 4)%nat ∧ (col pos = 4 ∨ col pos = 6)%nat.
Proof.
  unfold largePositions. rewrite !elem_of_cons, elem_of_nil.
  destruct pos as [r k]. simpl. split.
  - intros [H|[H|[H|[H|[]]]]]; injection H as -> ->; lia.
  - intros [[-> | ->] [-> | ->]]; auto.
Qed.

Lemma grid_tiling_cases (r k : nat) :
  {| row := r; col := k |} ∈ smallPositions
  ∨ (∃ pos, pos ∈ largePositions ∧ inBlock pos r k) →
  (1 ≤ r ≤ ROWS)%nat ∧ (1 ≤ k ≤ COLS)%nat.
Proof.
  unfold ROWS, COLS, inBlock.
  intros [H%smallPositions_cells | (pos & Hp%elem_of_largePositions & Hb)];
    lia.
Qed.

Lemma small_not_in_block (r k : nat) pos :
  {| row := r; col := k |} ∈ smallPositions →
  pos ∈ largePositions → ¬ inBlock pos r k.
Proof.
  unfold inBlock.
  intros Hs%smallPositions_cells Hp%elem_of_largePositions. lia.
Qed.

Lemma block_unique (r k : nat) pos pos' :
  pos ∈ largePositions → pos' ∈ largePositions →
  inBlock pos r k → inBlock pos' r k → pos = pos'.
Proof.
  unfold inBlock. destruct pos as [r1 k1], pos' as [r2 k2].
  intros H1%elem_of_largePositions H2%elem_of_largePositions.
  simpl in *. intros. f_equal; lia.
Qed.

(** The small positions and the 2x2 blocks of the large positions tile
    the grid: a cell of the grid is a small position and in no block, or
    it is no small position and in the block of exactly one large
    position; and the blocks lie in the grid. *)
Theorem grid_tiling (r k : nat) :
  ((1 ≤ r ≤ ROWS)%nat ∧ (1 ≤ k ≤ COLS)%nat
   ↔ {| row := r; col := k |} ∈ smallPositions
     ∨ ∃ pos, pos ∈ largePositions ∧ inBlock pos r k)
  ∧ ({| row := r; col := k |} ∈ smallPositions →
     ∀ pos, pos ∈ largePositions → ¬ inBlock pos r k)
  ∧ (∀ pos pos', pos ∈ largePositions → pos' ∈ largePositions →
       inBlock pos r k → inBlock pos' r k → pos = pos').
Proof.
  unfold ROWS, COLS, inBlock. split; [| split].
  - rewrite smallPositions_cells. split.
    + intros [Hr Hk].
      destruct (decide ((4 ≤ k ≤ 7)%nat ∧ (2 ≤ r ≤ 5)%nat)) as [Hc|Hc];
        [right | by left].
      exists {| row := if decide (r ≤ 3)%nat then 2%nat else 4%nat;
                col := if decide (k ≤ 5)%nat then 4%nat else 6%nat |}.
      rewrite elem_of_largePositions. simpl.
      repeat case_decide; lia.
    + intros [H | (pos & Hp%elem_of_largePositions & Hb)]; lia.
  - intros Hs%smallPositions_cells pos Hp%elem_of_largePositions.
    lia.
  - intros [r1 k1] [r2 k2] H1%elem_of_largePositions
      H2%elem_of_largePositions. simpl in *. intros. f_equal; lia.
Qed.

(** *** The rendered cells *)

Lemma omap_imap_None {A C} (f : nat → A → option C) (l : list A) :
  (∀ i a, f i a = None) → omap (λ c, c) (imap f l) = [].
Proof.
  revert f. induction l as [|a l IH]; intros f Hf; [done |].
  rewrite imap_cons. simpl. rewrite Hf. apply IH. intros i a'. apply Hf.
Qed.

Lemma omap_imap_lookup {A B C} (g : nat → A → B → C) (l1 : list A)
    (l2 : list B) :
  omap (λ c, c) (imap (λ i a, g i a <$> l2 !! i) l1)
  = imap (λ i ab, g i ab.1 ab.2) (zip l1 l2).
Proof.
  revert g l2. induction l1 as [|a l1 IH]; intros g l2; [done |].
  destruct l2 as [|b l2].
  - by apply omap_imap_None.
  - rewrite imap_cons. simpl. f_equal. apply (IH (λ i, g (S i))).
Qed.

Lemma zip_flip {A B} (l1 : list A) (l2 : list B) :
  zip l2 l1 = (λ ab, (ab.2, ab.1)) <$> zip l1 l2.
Proof.
  revert l2. induction l1 as [|a l1 IH]; intros [|b l2]; simpl; try done.
  by rewrite IH.
Qed.

Lemma omap_imap_lookup_r {A B C} (g : nat → A → B → C) (l1 : list A)
    (l2 : list B) :
  omap (λ c, c) (imap (λ i b, (λ a, g i a b) <$> l1 !! i) l2)
  = imap (λ i ab, g i ab.1 ab.2) (zip l1 l2).
Proof.
  rewrite (omap_imap_lookup (λ i b a, g i a b)), (zip_flip l1 l2).
  by rewrite imap_fmap.
Qed.

Lemma cells_zip data flipped :
  cells data flipped
  = imap (λ index pf, SmallCell index pf.1 pf.2)
      (zip smallPositions (smallFeatures data))
    ++ imap (λ index pf,
               LargeCell index pf.1 pf.2 (bool_decide (index ∈ flipped)))
         (zip largePositions (largeFeatures data)).
Proof.
  unfold cells, renderSmall, renderLarge. rewrite omap_app. f_equal.
  - apply (omap_imap_lookup (λ i pos f, SmallCell i pos f)).
  - apply (omap_imap_lookup_r
             (λ i pos f, LargeCell i pos f (bool_decide (i ∈ flipped)))).
Qed.

(** The rendered cells are the small features paired in order with the
    small positions, then the large features paired in order with the
    large positions: the feature at an index without a position, and the
    position at an index without a feature, give no cell. *)
Theorem cells_paired (data : FeaturesData) (flipped : gset nat) :
  cells data flipped
  = imap (λ index pf, SmallCell index pf.1 pf.2)
      (zip smallPositions (smallFeatures data))
    ++ imap (λ index pf,
               LargeCell index pf.1 pf.2 (bool_decide (index ∈ flipped)))
         (zip largePositions (largeFeatures data))
  ∧ length (cells data flipped)
    = (Nat.min 44 (length (smallFeatures data))
       + Nat.min 4 (length (largeFeatures data)))%nat.
Proof.
  split; [apply cells_zip |].
  rewrite cells_zip, length_app, !length_imap, !length_zip. reflexivity.
Qed.

Lemma elem_of_cells data flipped c :
  c ∈ cells data flipped ↔
  (∃ i pos f, c = SmallCell i pos f ∧ smallPositions !! i = Some pos
              ∧ smallFeatures data !! i = Some f)
  ∨ (∃ i pos f, c = LargeCell i pos f (bool_decide (i ∈ flipped))
                ∧ largePositions !! i = Some pos
                ∧ largeFeatures data !! i = Some f).
Proof.
  rewrite cells_zip, elem_of_app, !list_elem_of_lookup.
  setoid_rewrite list_lookup_imap_Some.
  split.
  - intros [(i & [pos f] & [Hp Hf]%lookup_zip_Some & ->)
           | (i & [pos f] & [Hp Hf]%lookup_zip_Some & ->)];
      [left | right]; by exists i, pos, f.
  - intros [(i & pos & f & -> & Hp & Hf) | (i & pos & f & -> & Hp & Hf)];
      [left | right]; exists i, (pos, f); by rewrite lookup_zip_Some.
Qed.

Lemma cell_position pos :
  pos = {| row := row pos; col := col pos |}.
Proof. by destruct pos. Qed.

(** Whatever the data and the flipped cards, the rendered cells lie in
    the grid and two of them that take the same grid cell are one cell of
    the list, which holds no cell twice. *)
Theorem cells_never_overlap (data : FeaturesData) (flipped : gset nat) :
  NoDup (cells data flipped)
  ∧ (∀ c r k, c ∈ cells data flipped → occupies c r k →
       (1 ≤ r ≤ ROWS)%nat ∧ (1 ≤ k ≤ COLS)%nat)
  ∧ (∀ c1 c2 r k, c1 ∈ cells data flipped → c2 ∈ cells data flipped →
       occupies c1 r k → occupies c2 r k → c1 = c2).
Proof.
  split; [| split].
  - rewrite cells_zip. apply NoDup_app. split; [| split].
    + apply NoDup_alt. intros i j c.
      rewrite !list_lookup_imap_Some.
      intros (x & _ & ->) (y & _ & [=]). done.
    + intros c (i & Hi)%list_elem_of_lookup (j & Hj)%list_elem_of_lookup.
      apply list_lookup_imap_Some in Hi as (x & _ & ->).
      by apply list_lookup_imap_Some in Hj as (y & _ & ?).
    + apply NoDup_alt. intros i j c.
      rewrite !list_lookup_imap_Some.
      intros (x & _ & ->) (y & _ & [=]). done.
  - intros c r k Hc Hocc.
    apply (grid_tiling_cases r k).
    apply elem_of_cells in Hc
      as [(i & pos & f & -> & Hp & _) | (i & pos & f & -> & Hp & _)];
      simpl in Hocc.
    + left. destruct Hocc as [-> ->]. rewrite <- cell_position.
      apply list_elem_of_lookup. by exists i.
    + right. exists pos. split; [| done].
      apply list_elem_of_lookup. by exists i.
  - intros c1 c2 r k Hc1 Hc2 H1 H2.
    apply elem_of_cells in Hc1
      as [(i & p1 & f1 & -> & Hp1 & Hf1) | (i & p1 & f1 & -> & Hp1 & Hf1)];
    apply elem_of_cells in Hc2
      as [(j & p2 & f2 & -> & Hp2 & Hf2) | (j & p2 & f2 & -> & Hp2 & Hf2)];
      simpl in H1, H2.
    + destruct H1 as [-> ->].
      assert (p1 = p2) as <-.
      { destruct p1, p2, H2. simpl in *. by f_equal. }
      assert (i = j) as <-
        by apply (NoDup_lookup _ _ _ _ smallPositions_NoDup Hp1 Hp2).
      congruence.
    + exfalso. destruct H1 as [-> ->].
      eapply (small_not_in_block (row p1) (col p1)); [| | exact H2].
      * rewrite <- cell_position. apply list_elem_of_lookup. by exists i.
      * apply list_elem_of_lookup. by exists j.
    + exfalso. destruct H2 as [-> ->].
      eapply (small_not_in_block (row p2) (col p2)); [| | exact H1].
      * rewrite <- cell_position. apply list_elem_of_lookup. by exists j.
      * apply list_elem_of_lookup. by exists i.
    + assert (p1 = p2) as <-.
      { eapply (block_unique r k); [| | exact H1 | exact H2];
          apply list_elem_of_lookup; eauto. }
      assert (i = j) as <-
        by apply (NoDup_lookup _ _ _ _ largePositions_NoDup Hp1 Hp2).
      congruence.
Qed.

Lemma cells_never_overlap_witness :
  let f := {| icon := ofString "a.svg"; text := ofString "A" |} in
  let data := {| smallFeatures := [f; f]; largeFeatures := [] |} in
  let c := SmallCell 1 {| row := 1; col := 2 |} f in
  c ∈ cells data ∅ ∧ occupies c 1 2 ∧ (1 ≤ 2 ≤ COLS)%nat.
Proof.
  intros f data c.
  assert (Hc : c ∈ cells data ∅) by (right; left).
  assert (Ho : occupies c 1 2) by done.
  split; [exact Hc |]. split; [exact Ho |].
  exact (proj2 (proj1 (proj2 (cells_never_overlap data ∅)) c 1%nat 2%nat Hc Ho)).
Defined.

Lemma grid_tiling_witness :
  {| row := 1; col := 5 |} ∈ smallPositions
  ∧ ((1 ≤ 1 ≤ ROWS)%nat ∧ (1 ≤ 5 ≤ COLS)%nat)
  ∧ ¬ inBlock {| row := 2; col := 4 |} 1 5.
Proof.
  assert (Hs : {| row := 1; col := 5 |} ∈ smallPositions).
  { apply smallPositions_cells. unfold ROWS, COLS. lia. }
  split; [exact Hs |]. split.
  - exact (proj2 (proj1 (grid_tiling 1 5)) (or_introl Hs)).
  - apply (proj1 (proj2 (grid_tiling 1 5)) Hs). left.
Defined.

(** *** Flipping the large cards *)

Lemma hovers_snoc evs ev :
  hovers (evs ++ [ev]) = handleLargeFeatureHover ev.1 ev.2 (hovers evs).
Proof. unfold hovers. by rewrite foldl_snoc. Qed.

(** After any hover events a card is flipped exactly when the last event
    on it was the mouse entering. *)
Theorem flipped_after_last_enter (evs : list (nat * bool)) (index : nat) :
  index ∈ hovers evs
  ↔ snd <$> last (filter (λ ev, ev.1 = index) evs) = Some true.
Proof.
  induction evs as [|[j b] evs IH] using rev_ind.
  - split; [by intros ?%elem_of_empty | done].
  - rewrite hovers_snoc, filter_app, filter_cons, filter_nil. simpl.
    unfold handleLargeFeatureHover.
    case_decide as Hj.
    + subst j. rewrite last_snoc. simpl. destruct b.
      * rewrite elem_of_union, elem_of_singleton. by split; [| left].
      * rewrite elem_of_difference, elem_of_singleton.
        split; [by intros [_ []] | done].
    + rewrite app_nil_r, <- IH. destruct b.
      * rewrite elem_of_union, elem_of_singleton.
        split; [by intros [? | ?] | by right].
      * rewrite elem_of_difference, elem_of_singleton.
        split; [by intros [? _] | done].
Qed.

(** *** Loading the features *)

Lemma features_run_cons st ev evs : run st (ev :: evs) = run (step st ev) evs.
Proof. reflexivity. Qed.

Lemma loadInvariant_step st ev : loadInvariant st → loadInvariant (step st ev).
Proof.
  unfold loadInvariant, step.
  destruct ev as [[|status body]| |index b], (phase st) as [|[data|]|] eqn:Hp;
    simpl; rewrite ?Hp; try done;
    intros (H1 & H2 & H3); try destruct (negb _); simpl;
    rewrite ?Hp, ?H1, ?H2, ?H3; auto.
Qed.

Lemma loadInvariant_run st evs : loadInvariant st → loadInvariant (run st evs).
Proof.
  unfold run. revert st.
  induction evs as [|ev evs IH]; intros st H; [done |].
  simpl. by apply IH, loadInvariant_step.
Qed.

Lemma features_step_done st ev :
  phase st = Done →
  phase (step st ev) = Done ∧ features (step st ev) = features st
  ∧ isLoading (step st ev) = isLoading st ∧ errors (step st ev) = errors st.
Proof.
  intros H. unfold step. rewrite H.
  by destruct ev as [[|status body]| |index b].
Qed.

Lemma features_run_done st evs :
  phase st = Done →
  features (run st evs) = features st
  ∧ isLoading (run st evs) = isLoading st ∧ errors (run st evs) = errors st.
Proof.
  unfold run. revert st.
  induction evs as [|ev evs IH]; intros st H; [done |].
  simpl. destruct (features_step_done st ev H) as (Hp & Hf & Hl & He).
  destruct (IH _ Hp) as (Hf' & Hl' & He'). by rewrite Hf', Hl', He'.
Qed.

(** In every state of the component the grid is rendered exactly when the
    features are there; they are never there while it is loading or after
    an error was logged, and at most one error is logged. *)
Theorem features_load_states (evs : list Event) :
  let st := run initial evs in
  (is_Some (render st) ↔ is_Some (features st))
  ∧ (is_Some (features st) → isLoading st = false ∧ errors st = 0%nat)
  ∧ (isLoading st = false ↔ phase st = Done)
  ∧ (errors st ≤ 1)%nat.
Proof.
  intros st.
  assert (H : loadInvariant st)
    by (apply loadInvariant_run; by unfold loadInvariant).
  unfold loadInvariant, render in *.
  destruct (phase st) as [|body|].
  - destruct H as (-> & -> & ->).
    repeat split; try done; try lia; by intros [? ?].
  - destruct H as (-> & -> & ->).
    repeat split; try done; try lia; by intros [? ?].
  - destruct H as (-> & [[-> ->] | [Hf ->]]).
    + repeat split; try done; try lia; by intros [? ?].
    + destruct (features st) as [data|]; [| done].
      repeat split; try done; try lia; by eexists.
Qed.

(** A load that fails, by a rejected fetch, a status outside 200-299 or a
    body that is no JSON document, ends the loading with one error
    logged, and the component renders nothing from then on. *)
Theorem features_load_failure (r : FetchResult) (evs : list Event) :
  failed r →
  let st := run initial (FetchSettled r :: JsonSettled :: evs) in
  render st = None ∧ features st = None
  ∧ isLoading st = false ∧ errors st = 1%nat.
Proof.
  intros Hf st.
  assert (H : phase (run initial [FetchSettled r; JsonSettled]) = Done
              ∧ features (run initial [FetchSettled r; JsonSettled]) = None
              ∧ isLoading (run initial [FetchSettled r; JsonSettled]) = false
              ∧ errors (run initial [FetchSettled r; JsonSettled]) = 1%nat).
  { destruct r as [|status body]; [done |].
    unfold run, step, Loader.ok. simpl.
    destruct (decide (200 ≤ status ≤ 299)) as [Hs|Hs].
    - rewrite bool_decide_eq_true_2 by done. simpl.
      destruct Hf as [? | ->]; done.
    - by rewrite bool_decide_eq_false_2. }
  destruct H as (Hp & Hnone & Hl & He).
  destruct (features_run_done _ evs Hp) as (Hf' & Hl' & He').
  assert (Hst : st = run (run initial [FetchSettled r; JsonSettled]) evs)
    by reflexivity.
  rewrite Hst. unfold render. rewrite Hf', Hl', He', Hnone. done.
Qed.

Lemma features_load_failure_witness :
  let r := Response 500 None in
  failed r
  ∧ render (run initial [FetchSettled r; JsonSettled; Hover 0 true]) = None.
Proof.
  intros r.
  assert (Hf : failed r) by (left; lia).
  split; [exact Hf |].
  exact (proj1 (features_load_failure r [Hover 0%nat true] Hf)).
Defined.

(** A load that succeeds renders the grid of the loaded features, with no
    card flipped. *)
Theorem features_load_success (status : Z) (data : FeaturesData) :
  200 ≤ status ≤ 299 →
  render (run initial [FetchSettled (Response status (Some data)); JsonSettled])
  = Some (cells data ∅).
Proof.
  intros H. unfold run, step, Loader.ok. simpl.
  by rewrite bool_decide_eq_true_2.
Qed.

Lemma features_load_success_witness :
  let f := {| icon := ofString "a.svg"; text := ofString "A" |} in
  let data := {| smallFeatures := [f]; largeFeatures := [] |} in
  render (run initial [FetchSettled (Response 200 (Some data)); JsonSettled])
  = Some [SmallCell 0 {| row := 1; col := 1 |} f].
Proof.
  intros f data.
  rewrite (features_load_success 200 data) by lia.
  reflexivity.
Defined.

Lemma features_load_states_witness :
  let f := {| icon := ofString "a.svg"; text := ofString "A" |} in
  let data := {| smallFeatures := [f]; largeFeatures := [] |} in
  let st := run initial [FetchSettled (Response 200 (Some data));
                         JsonSettled; Hover 0 true] in
  is_Some (features st) ∧ isLoading st = false ∧ errors st = 0%nat.
Proof.
  intros f data st.
  assert (Hf : is_Some (features st)) by (by eexists).
  split; [exact Hf |].
  exact (proj1 (proj2 (features_load_states
           [FetchSettled (Response 200 (Some data)); JsonSettled;
            Hover 0%nat true])) Hf).
Defined.

End FeatureGridProperties.

(** ** More properties of the ranking *)

Module RankingMore.
Import TopBar JsStringFacts Ranking RankingProperties Catalog.

Lemma occursIn_refl q : occursIn q q.
Proof. exists [], []. by rewrite app_nil_r. Qed.

Lemma occursIn_trans q q' s : occursIn q q' → occursIn q' s → occursIn q s.
Proof.
  intros (l & r & ->) (l' & r' & ->). exists (l' ++ l), (r ++ r').
  by rewrite <- !app_assoc.
Qed.

(** An item has a positive base score exactly when the query occurs in
    its lower-cased label or in one of its lower-cased keywords. *)
Lemma matchScore_pos query it :
  0 < matchScore query it
  ↔ labelMatch query it ∨ someKeyword (λ k, occursIn query k) it.
Proof.
  unfold labelMatch. split.
  - intros H.
    destruct (matchScore_BaseScore query it)
      as [He|? Hp|? ? Ho|? Hk|? ? Hk|? ? ? Hk|]; try lia.
    + left. rewrite He. apply occursIn_refl.
    + left. by apply occursIn_prefix.
    + by left.
    + right. eapply someKeyword_impl; [| exact Hk].
      intros s ->. apply occursIn_refl.
    + right. eapply someKeyword_impl; [| exact Hk].
      intros s. apply occursIn_prefix.
    + by right.
  - intros H.
    destruct (matchScore_BaseScore query it); try lia.
    destruct H; done.
Qed.

(** Every returned item is an item of the catalog that the query, lower
    cased but not trimmed, occurs in: in its lower-cased label or in one
    of its lower-cased keywords. *)
Theorem results_contain_query (searchQuery : jsstring)
    (items : list SearchResult) (it : SearchResult) :
  it ∈ searchResults searchQuery items →
  let query := toLowerCase searchQuery in
  it ∈ items
  ∧ (occursIn query (toLowerCase (label it))
     ∨ ∃ ks k, keywords it = Some ks ∧ k ∈ ks
               ∧ occursIn query (toLowerCase k)).
Proof.
  intros Hin%searchResults_subseteq_ranking query.
  apply ranking_elem_of in Hin as [Hpos Hin]. split; [done |].
  apply (matchScore_pos query it).
  fold query in Hpos. rewrite combinedScore_eq in Hpos.
  case_decide; lia.
Qed.

Lemma results_contain_query_witness :
  let it := entry "legal" "Legal" TPage "/legal" None 100
              ["terms"; "privacy"; "policy"; "documents"]%string in
  it ∈ searchResults (ofString "Legal") SEARCHABLE_ITEMS
  ∧ occursIn (ofString "legal") (toLowerCase (label it)).
Proof.
  intros it.
  assert (Hin : it ∈ searchResults (ofString "Legal") SEARCHABLE_ITEMS)
    by (vm_compute; left).
  split; [exact Hin |].
  destruct (results_contain_query _ _ _ Hin) as [_ [Hl | (ks & k & Hk)]].
  - exact Hl.
  - apply occursIn_refl.
Defined.

(** For queries of Basic Latin and Latin-1 characters, which the code
    lower-cases character by character as the table does: an entry that
    matches a query matches every contiguous part of the query, so that
    extending the query never makes an entry match that did not match
    before. *)
Theorem match_narrows (l q r : jsstring) (it : SearchResult) :
  isLatin1 l → isLatin1 q → isLatin1 r →
  0 < matchScore (toLowerCase (l ++ q ++ r)) it →
  0 < matchScore (toLowerCase q) it.
Proof.
  intros _ _ _. rewrite !matchScore_pos. unfold labelMatch.
  assert (Hq : occursIn (toLowerCase q) (toLowerCase (l ++ q ++ r))).
  { exists (toLowerCase l), (toLowerCase r).
    unfold toLowerCase. by rewrite !fmap_app. }
  intros [H | H].
  - left. by eapply occursIn_trans.
  - right. eapply someKeyword_impl; [| exact H].
    intros s. by apply occursIn_trans.
Qed.

Lemma match_narrows_witness :
  let it := plain (ofString "Pay for Parking") (Some 90) in
  isLatin1 (ofString "Pa") ∧ isLatin1 (ofString "y f")
  ∧ isLatin1 (ofString "or")
  ∧ 0 < matchScore (toLowerCase (ofString "Pay for")) it
  ∧ 0 < matchScore (toLowerCase (ofString "y f")) it.
Proof.
  intros it.
  assert (Hl : isLatin1 (ofString "Pa")) by (repeat constructor).
  assert (Hq : isLatin1 (ofString "y f")) by (repeat constructor).
  assert (Hr : isLatin1 (ofString "or")) by (repeat constructor).
  assert (H : 0 < matchScore (toLowerCase (ofString "Pay for")) it)
    by (vm_compute; reflexivity).
  split; [exact Hl |]. split; [exact Hq |]. split; [exact Hr |].
  split; [exact H |].
  exact (match_narrows (ofString "Pa") (ofString "y f") (ofString "or") it
           Hl Hq Hr H).
Defined.

(** An item of the catalog with a positive score is left out of the
    result only when eight items with scores at least as high are
    returned. *)
Theorem results_omit_only_beaten (searchQuery : jsstring)
    (items : list SearchResult) (it : SearchResult) :
  trim searchQuery ≠ [] →
  it ∈ items →
  0 < combinedScore (toLowerCase searchQuery) it →
  it ∉ searchResults searchQuery items →
  length (searchResults searchQuery items) = 8%nat
  ∧ ∀ r, r ∈ searchResults searchQuery items →
         combinedScore (toLowerCase searchQuery) it
         ≤ combinedScore (toLowerCase searchQuery) r.
Proof.
  intros Hq Hin Hpos Hout. rewrite trim_nil in Hq.
  rewrite searchResults_ranking in * by done.
  set (R := ranking (toLowerCase searchQuery) items) in *.
  assert (HR : it ∈ R) by (by apply ranking_elem_of).
  rewrite <- (take_drop 8 R) in HR.
  apply elem_of_app in HR as [HR | HR]; [done |].
  split.
  - rewrite length_take. destruct (drop 8 R) eqn:E;
      [by apply elem_of_nil in HR |].
    apply (f_equal length) in E. rewrite length_drop in E. simpl in E. lia.
  - intros r Hr.
    pose proof (ranking_descending (toLowerCase searchQuery) items) as Hs.
    fold R in Hs. rewrite <- (take_drop 8 R) in Hs.
    by apply (StronglySorted_app_1_elem_of _ _ _ r it Hs).
Qed.

Lemma results_omit_only_beaten_witness :
  let items := (λ p, plain (ofString "Lot") (Some p))
                 <$> [1; 2; 3; 4; 5; 6; 7; 8; 9] in
  let it := plain (ofString "Lot") (Some 1) in
  trim (ofString "lot") ≠ []
  ∧ length (searchResults (ofString "lot") items) = 8%nat.
Proof.
  intros items it.
  assert (Hq : trim (ofString "lot") ≠ []) by (vm_compute; discriminate).
  split; [exact Hq |].
  refine (proj1 (results_omit_only_beaten (ofString "lot") items it Hq _ _ _)).
  - left.
  - vm_compute. reflexivity.
  - vm_compute. intros H.
    repeat (apply elem_of_cons in H as [H | H]; [discriminate |]).
    by apply elem_of_nil in H.
Defined.

(** An item that matches but whose priority, 50 when unset or 0, is so
    far below zero that it cancels the base score is not returned. *)
Theorem cancelled_match_excluded (searchQuery : jsstring)
    (items : list SearchResult) (it : SearchResult) :
  let query := toLowerCase searchQuery in
  0 < matchScore query it →
  matchScore query it + priorityOr50 it ≤ 0 →
  it ∉ searchResults searchQuery items.
Proof.
  intros query Hm Hp Hin%searchResults_subseteq_ranking.
  apply ranking_elem_of in Hin as [Hpos _]. fold query in Hpos.
  rewrite combinedScore_eq, decide_True in Hpos by done. lia.
Qed.

Lemma cancelled_match_excluded_witness :
  let it := plain (ofString "Home") (Some (-1000)) in
  0 < matchScore (toLowerCase (ofString "home")) it
  ∧ searchResults (ofString "home") [it] = [].
Proof.
  intros it.
  assert (Hm : 0 < matchScore (toLowerCase (ofString "home")) it)
    by (vm_compute; reflexivity).
  split; [exact Hm |].
  pose proof (cancelled_match_excluded (ofString "home") [it] it Hm
                ltac:(vm_compute; discriminate)) as Hout.
  destruct (searchResults (ofString "home") [it]) as [|r rs] eqn:E;
    [reflexivity |].
  exfalso. apply Hout.
  assert (Hr : r ∈ searchResults (ofString "home") [it])
    by (rewrite E; left).
  apply searchResults_subseteq_ranking, ranking_elem_of in Hr as [_ Hr].
  apply list_elem_of_singleton in Hr. subst r. left.
Defined.

Lemma NoDup_submseteq_inv {A} (l k : list A) : l ⊆+ k → NoDup k → NoDup l.
Proof.
  intros [k' Hk]%submseteq_Permutation. rewrite Hk, NoDup_app. by intros [? _].
Qed.

(** The result holds an item at most as often as the catalog does; a
    catalog whose ids are distinct gives results whose ids, the keys of
    the rows, are distinct. *)
Theorem results_keys_distinct (searchQuery : jsstring)
    (items : list SearchResult) :
  searchResults searchQuery items ⊆+ items
  ∧ (NoDup (id <$> items) → NoDup (id <$> searchResults searchQuery items)).
Proof.
  assert (Hsub : searchResults searchQuery items ⊆+ items).
  { destruct (searchResults_prefix_ranking searchQuery items) as [r Hr].
    trans (ranking (toLowerCase searchQuery) items).
    - rewrite Hr. apply sublist_submseteq, sublist_inserts_r. done.
    - rewrite ranking_Permutation.
      apply sublist_submseteq, sublist_filter. }
  split; [exact Hsub |].
  intros Hnd. eapply NoDup_submseteq_inv; [| exact Hnd].
  by apply fmap_submseteq.
Qed.

Lemma results_keys_distinct_witness :
  NoDup (id <$> SEARCHABLE_ITEMS)
  ∧ NoDup (id <$> searchResults (ofString "app") SEARCHABLE_ITEMS).
Proof.
  assert (Hnd : NoDup (id <$> SEARCHABLE_ITEMS))
    by (by apply (bool_decide_unpack _)).
  split; [exact Hnd |].
  exact (proj2 (results_keys_distinct (ofString "app") SEARCHABLE_ITEMS) Hnd).
Defined.

(** In a catalog whose priorities, 50 when unset or 0, all lie in a
    window narrower than 100 inside the range in which the sums of the
    code are exact, the integers of magnitude up to 2^53 - 1001, as the
    40-100 of the embedded catalog do, every score is an integer of
    magnitude below 2^53 and the tiers are never inverted: an exact label
    match is ranked strictly above a partial label match, and any label
    match strictly above a match by keywords only. *)
Theorem tiers_in_priority_window (searchQuery : jsstring)
    (items : list SearchResult) (lo : Z) (a b : SearchResult) :
  - (2 ^ 53 - 1001) ≤ lo → lo + 99 ≤ 2 ^ 53 - 1001 →
  Forall (λ it, lo ≤ priorityOr50 it < lo + 100) items →
  a ∈ items → b ∈ items →
  let query := toLowerCase searchQuery in
  (∀ it, it ∈ items → Z.abs (combinedScore query it) < 2 ^ 53)
  ∧ (exactLabelMatch query a → partialLabelMatch query b →
     rankedAbove searchQuery items a b)
  ∧ (labelMatch query a → keywordOnlyMatch query b →
     rankedAbove searchQuery items a b).
Proof.
  intros Hlo Hhi Hw Ha Hb query. rewrite Forall_forall in Hw.
  pose proof (Hw _ Ha). pose proof (Hw _ Hb). split; [| split].
  - intros it Hit. apply combinedScore_exact_sum. unfold exactPriority.
    specialize (Hw _ Hit). simpl in Hw. lia.
  - intros Hea Hpb. apply rankedAbove_score; [done |].
    apply combinedScore_exact in Hea. apply combinedScore_partial in Hpb.
    fold query. lia.
  - intros Hla Hkb. apply rankedAbove_score; [done |].
    apply combinedScore_label in Hla. apply combinedScore_keywordOnly in Hkb.
    fold query. lia.
Qed.

Lemma tiers_in_priority_window_witness :
  let a := entry "mobile-app" "Mobile App" TSection "/" (Some "app-hero") 80
             ["app"; "mobile"; "phone"; "download"; "parking app"]%string in
  let b := entry "job-mobile" "Mobile Engineer Position" TContent "/careers"
             None 40
             ["mobile"; "engineer"; "react native"; "ios"; "android";
              "developer"; "job"]%string in
  let c := entry "get-app" "Get the App" TAction
             "https://app.parkwithparallel.com" None 90
             ["download"; "install"; "mobile"; "phone"; "ios";
              "android"]%string in
  - (2 ^ 53 - 1001) ≤ 40 ∧ 40 + 99 ≤ 2 ^ 53 - 1001
  ∧ Forall (λ it, 40 ≤ priorityOr50 it < 40 + 100) SEARCHABLE_ITEMS
  ∧ rankedAbove (ofString "Mobile") SEARCHABLE_ITEMS b c.
Proof.
  intros a b c.
  assert (Hw : Forall (λ it, 40 ≤ priorityOr50 it < 40 + 100) SEARCHABLE_ITEMS).
  { by apply (bool_decide_unpack _). }
  assert (Hlo : - (2 ^ 53 - 1001) ≤ 40) by (vm_compute; discriminate).
  assert (Hhi : 40 + 99 ≤ 2 ^ 53 - 1001) by (vm_compute; discriminate).
  split; [exact Hlo |]. split; [exact Hhi |]. split; [exact Hw |].
  assert (Hb : b ∈ SEARCHABLE_ITEMS).
  { apply list_elem_of_lookup. exists 21%nat. reflexivity. }
  assert (Hc : c ∈ SEARCHABLE_ITEMS).
  { apply list_elem_of_lookup. exists 4%nat. reflexivity. }
  apply (proj2 (proj2 (tiers_in_priority_window (ofString "Mobile")
                         SEARCHABLE_ITEMS 40 b c Hlo Hhi Hw Hb Hc))).
  - exists [], (ofString " engineer position"). vm_compute. reflexivity.
  - split; [apply not_occursIn; vm_compute; reflexivity |].
    exists (ofString <$> ["download"; "install"; "mobile"; "phone"; "ios";
                          "android"]%string), (ofString "mobile").
    split; [reflexivity |]. split; [do 2 right; left |].
    apply occursIn_refl.
Defined.

End RankingMore.

(** ** Scrolling to a section and tracking it *)

Module ScrollToSectionProperties.
Import UseScrollToSection ScrollToSection SectionTracking.

(** From a scroll position of 50 on, the active section is one the scroll
    position has reached, when there is one, and no reached section lies
    below it. *)
Lemma handleScroll_furthest w a s top :
  50 ≤ scrollY w → reached w s top →
  ∃ e, handleScroll w a = section e
       ∧ e ∈ orderedSections w
       ∧ offsetTop e ≤ scrollY w + 150
       ∧ ∀ e', e' ∈ orderedSections w → offsetTop e' ≤ scrollY w + 150 →
               offsetTop e' ≤ offsetTop e.
Proof.
  intros Hy (Hs & Hdoc & Htop).
  assert (Hin : {| section := s; offsetTop := top |}
                ∈ filter (λ e, offsetTop e ≤ scrollY w + 150)
                    (orderedSections w)).
  { apply list_elem_of_filter. split; [done |].
    by apply elem_of_orderedSections. }
  unfold handleScroll. rewrite decide_False by lia. rewrite walk_last.
  destruct (last _) as [e|] eqn:E.
  2: { apply last_None in E. rewrite E in Hin. by apply elem_of_nil in Hin. }
  exists e. split; [done |].
  pose proof E as [l' Hl']%last_Some.
  apply last_Some_elem_of, list_elem_of_filter in E as [He Hord].
  split; [done |]. split; [done |].
  intros e' He' Htop'.
  assert (Hf : e' ∈ filter (λ e, offsetTop e ≤ scrollY w + 150)
                    (orderedSections w))
    by (by apply list_elem_of_filter).
  pose proof (StronglySorted_filter _ (λ e, offsetTop e ≤ scrollY w + 150)
                _ (orderedSections_ascending w)) as Hsorted.
  rewrite Hl' in Hf, Hsorted.
  apply elem_of_app in Hf as [Hf | Hf].
  - apply (StronglySorted_app_1_elem_of _ _ _ _ e Hsorted) in Hf;
      [done | left].
  - apply list_elem_of_singleton in Hf. by subst e'.
Qed.

(** Scrolling to a tracked section makes it the active section once the
    scroll has come to rest, when the section starts at least 150 px down
    the page and every other tracked section that the scroll position has
    then reached starts above it; when it starts less than 150 px down,
    "home" is the active section instead. *)
Theorem scrollToSection_then_active (w : Window) (s : string) (top : Z)
    (activeSection : string) :
  s ∈ trackedSections →
  document w !! s = Some top →
  scrollToSection w s = Some (top - 100)
  ∧ (150 ≤ top →
     (∀ s' top', s' ∈ trackedSections → s' ≠ s →
        document w !! s' = Some top' → top' ≤ top + 50 → top' < top) →
     handleScroll (scrolledTo (top - 100) w) activeSection = s)
  ∧ (top < 150 →
     handleScroll (scrolledTo (top - 100) w) activeSection = "home"%string).
Proof.
  intros Hs Hdoc.
  assert (Hhome : s ≠ "home"%string).
  { intros ->. unfold trackedSections in Hs.
    repeat (apply elem_of_cons in Hs as [Hs | Hs]; [done |]).
    by apply elem_of_nil in Hs. }
  split; [| split].
  - unfold scrollToSection. by rewrite decide_False, Hdoc.
  - intros Htop Hothers.
    destruct (handleScroll_furthest (scrolledTo (top - 100) w)
                activeSection s top) as (e & -> & He & Hr & Hmax).
    { simpl. lia. }
    { split; [done |]. split; [done | simpl; lia]. }
    apply elem_of_orderedSections in He as [Hes Hedoc]. simpl in *.
    destruct (decide (section e = s)) as [-> | Hne]; [done |].
    exfalso.
    specialize (Hothers _ _ Hes Hne Hedoc ltac:(lia)).
    specialize (Hmax {| section := s; offsetTop := top |}).
    simpl in Hmax. rewrite elem_of_orderedSections in Hmax. simpl in Hmax.
    specialize (Hmax (conj Hs Hdoc)). lia.
  - intros Htop. unfold handleScroll. simpl. by rewrite decide_True by lia.
Qed.

Lemma scrollToSection_then_active_witness :
  let doc : gmap string Z :=
    {[ "operator-portal"%string := 800; "mobile-app"%string := 1600 ]} in
  let w := {| scrollY := 0; document := doc |} in
  scrollToSection w "mobile-app"%string = Some 1500
  ∧ handleScroll (scrolledTo 1500 w) "home"%string = "mobile-app"%string.
Proof.
  intros doc w.
  assert (Hs : "mobile-app"%string ∈ trackedSections) by (right; left).
  assert (Hdoc : document w !! "mobile-app"%string = Some 1600)
    by (vm_compute; reflexivity).
  destruct (scrollToSection_then_active w "mobile-app"%string 1600
              "home"%string Hs Hdoc) as (Hto & Hact & _).
  split; [exact Hto |].
  apply Hact; [lia |].
  intros s' top' Hs' Hne Hdoc' _.
  unfold trackedSections in Hs'.
  apply elem_of_cons in Hs' as [-> | Hs'].
  - vm_compute in Hdoc'. injection Hdoc' as <-. lia.
  - apply list_elem_of_singleton in Hs'. by subst s'.
Defined.

(** On one page, scrolling further down never moves the active section
    to one that starts higher up. *)
Theorem activeSection_monotone (w1 w2 : Window) (a1 a2 : string) (top1 : Z) :
  document w1 = document w2 →
  50 ≤ scrollY w1 ≤ scrollY w2 →
  reached w1 (handleScroll w1 a1) top1 →
  ∃ top2, reached w2 (handleScroll w2 a2) top2 ∧ top1 ≤ top2.
Proof.
  intros Hdoc Hy Hr1.
  assert (Hr2 : reached w2 (handleScroll w1 a1) top1).
  { destruct Hr1 as (Hs & Hd & Ht). split; [done |].
    split; [by rewrite <- Hdoc | lia]. }
  destruct (handleScroll_furthest w2 a2 _ _ ltac:(lia) Hr2)
    as (e & -> & He & Hr & Hmax).
  exists (offsetTop e).
  pose proof He as [Hes Hed]%elem_of_orderedSections.
  split; [done |].
  apply (Hmax {| section := handleScroll w1 a1; offsetTop := top1 |}).
  - apply elem_of_orderedSections. destruct Hr2 as (? & ? & ?). done.
  - destruct Hr2 as (? & ? & ?). done.
Qed.

Lemma activeSection_monotone_witness :
  let doc : gmap string Z :=
    {[ "operator-portal"%string := 800; "mobile-app"%string := 1600 ]} in
  let w1 := {| scrollY := 900; document := doc |} in
  let w2 := {| scrollY := 1700; document := doc |} in
  reached w1 (handleScroll w1 "home"%string) 800
  ∧ ∃ top2, reached w2 (handleScroll w2 "home"%string) top2 ∧ 800 ≤ top2.
Proof.
  intros doc w1 w2.
  assert (Hr : reached w1 (handleScroll w1 "home"%string) 800).
  { split; [left |]. split; [vm_compute; reflexivity | simpl; lia]. }
  split; [exact Hr |].
  apply (activeSection_monotone w1 w2 "home"%string "home"%string 800
           eq_refl ltac:(simpl; lia) Hr).
Defined.

End ScrollToSectionProperties.

(** ** The scroll phase over runs *)

Module ScrollPhaseRunsProperties.
Import ScrollPhase ScrollPhaseRuns.

Lemma consistent_mount scrollY : consistent (mount scrollY).
Proof.
  unfold consistent, mount, handleScroll, setIsScrolled. simpl.
  case_decide as H; simpl; [done |].
  destruct (bool_decide (100 < scrollY)); [| done]. simpl.
  split; [done |]. split; [lia | done].
Qed.

Lemma consistent_step st ev :
  forward ev → consistent st → consistent (step st ev).
Proof.
  unfold consistent. intros Hev [Hm Ht]. destruct ev as [scrollY | ms]; simpl.
  - unfold handleScroll, setIsScrolled, phaseEffect.
    case_decide as Hv; [done |]. simpl. rewrite Hm. simpl.
    split; [done |]. split; [lia | done].
  - unfold elapse. simpl in Hev.
    destruct (timeout st) as [due|]; [| done].
    case_decide; simpl; [done |].
    split; [done |]. destruct Ht as [? ->]. split; [lia | done].
Qed.

Lemma consistent_run st evs :
  Forall forward evs → consistent st → consistent (run st evs).
Proof.
  unfold run. intros Hevs. revert st.
  induction Hevs as [|ev evs Hev _ IH]; intros st Hst; [done |].
  simpl. by apply IH, consistent_step.
Qed.

(** In every state the component reaches after the mount, the phase is
    [hide] or [show] exactly while a timeout is pending; the phase is
    then the one of the scrolled flag, [hide] when scrolled and [show]
    when not, and the timeout is due within 450 ms; so once 450 ms pass
    without a crossing the phase is [idle]. *)
Theorem scrollPhase_idle_unless_pending (scrollY : Z) (evs : list Event) :
  Forall forward evs →
  let st := run (mount scrollY) evs in
  (scrollPhase st = idle ↔ timeout st = None)
  ∧ (∀ due, timeout st = Some due →
       now st < due ≤ now st + 450
       ∧ scrollPhase st = (if isScrolled st then hide else show))
  ∧ scrollPhase (elapse 450 st) = idle
  ∧ timeout (elapse 450 st) = None.
Proof.
  intros Hevs st.
  destruct (consistent_run (mount scrollY) evs Hevs (consistent_mount _))
    as [Hm Ht].
  fold st in Hm, Ht. unfold elapse.
  destruct (timeout st) as [due|].
  - destruct Ht as [Hdue Hp]. rewrite decide_True by lia. simpl.
    split; [| split; [| done]].
    + rewrite Hp. by destruct (isScrolled st).
    + by intros ? [= <-].
  - split; [done |]. split; [done |]. done.
Qed.

Lemma scrollPhase_idle_unless_pending_witness :
  let evs := [Scroll 300; Elapse 200; Scroll 20; Elapse 100] in
  Forall forward evs
  ∧ scrollPhase (run (mount 0) evs) = show
  ∧ scrollPhase (elapse 450 (run (mount 0) evs)) = idle.
Proof.
  intros evs.
  assert (Hevs : Forall forward evs).
  { repeat constructor; simpl; lia. }
  split; [exact Hevs |]. split; [reflexivity |].
  exact (proj1 (proj2 (proj2 (scrollPhase_idle_unless_pending 0 evs Hevs)))).
Defined.

Lemma scrollPhase_crossing_witness :
  let st := mount 0 in
  hasMounted st = true
  ∧ scrollPhase (handleScroll 300 st) = hide
  ∧ handleScroll 80 st = st.
Proof.
  intros st.
  assert (Hm : hasMounted st = true) by reflexivity.
  split; [exact Hm |].
  destruct (ScrollPhaseProperties.scrollPhase_crossing 300 st Hm)
    as (Hdown & _ & _).
  destruct (ScrollPhaseProperties.scrollPhase_crossing 80 st Hm)
    as (_ & _ & Hsame).
  split.
  - exact (proj1 (Hdown eq_refl ltac:(lia))).
  - exact (Hsame eq_refl).
Defined.

Lemma scrollPhase_mount_top_witness :
  scrollPhase (mount 100) = idle ∧ timeout (mount 100) = None.
Proof.
  rewrite (ScrollPhaseProperties.scrollPhase_mount_top 100) by lia.
  split; reflexivity.
Defined.

End ScrollPhaseRunsProperties.

(** ** The catalog load over runs *)

Module LoaderRunsProperties.
Import TopBar Loader LoaderRuns.

Lemma accounted_initial : accounted [] initial.
Proof.
  unfold accounted. simpl. repeat split; try done; auto.
Qed.

Lemma accounted_step evs st ev :
  accounted evs st → accounted (evs ++ [ev]) (step st ev).
Proof.
  unfold accounted. intros (Hitems & Hbody & Hlen & Hlog & Hphase).
  assert (Hitems' : searchableItems st = []
    ∨ ∃ status, 200 ≤ status ≤ 299
        ∧ FetchSettled (Response status (Some (searchableItems st)))
          ∈ evs ++ [ev]).
  { destruct Hitems as [? | (status & ? & ?)]; [by left | right].
    exists status. split; [done |]. apply elem_of_app. by left. }
  unfold step.
  destruct ev as [[|status body]| |], (phase st) as [|[data|]|] eqn:Hp;
    simpl; rewrite ?Hp.
  all: try (split; [exact Hitems' |]; split;
            [ intros body' Hb; destruct (Hbody body' Hb) as (s & ? & ?);
              exists s; split; [done |]; apply elem_of_app; by left
            | done ]).
  - (* the fetch is rejected *)
    destruct (decide (console st = [])) as [Hc | Hc];
      [| by destruct (Hlog Hc) as [_ ?]].
    rewrite Hc, (Hphase ltac:(done)). simpl.
    repeat split; try done; auto.
  - (* a response arrives *)
    destruct (decide (console st = [])) as [Hc | Hc];
      [| by destruct (Hlog Hc) as [_ ?]].
    unfold ok. destruct (decide (200 ≤ status ≤ 299)) as [Hs | Hs].
    + rewrite bool_decide_eq_true_2 by done. simpl.
      rewrite Hc, (Hphase ltac:(done)).
      split; [by left |]. split.
      * intros body' [= <-]. exists status. split; [done |].
        apply elem_of_app. right. left.
      * repeat split; try done; simpl; lia.
    + rewrite bool_decide_eq_false_2 by done. simpl.
      rewrite Hc, (Hphase ltac:(done)). simpl.
      repeat split; try done; auto.
  - (* the body is parsed *)
    destruct (decide (console st = [])) as [Hc | Hc];
      [| by destruct (Hlog Hc) as [_ ?]].
    destruct (Hbody _ eq_refl) as (status & Hs & Hev).
    rewrite Hc. split.
    + destruct (isMounted st).
      * right. exists status. split; [done |]. apply elem_of_app. by left.
      * exact Hitems'.
    + repeat split; try done; simpl; lia.
  - (* the body is no JSON document *)
    destruct (decide (console st = [])) as [Hc | Hc];
      [| by destruct (Hlog Hc) as [_ ?]].
    rewrite Hc, (Hphase ltac:(done)). simpl.
    repeat split; try done; auto.
Qed.

Lemma accounted_run evs : accounted evs (run initial evs).
Proof.
  induction evs as [|ev evs IH] using rev_ind; [apply accounted_initial |].
  unfold run. rewrite foldl_snoc. by apply accounted_step.
Qed.

(** Whatever the events of a load and their order, a catalog that is not
    empty is the parsed body of a response with a status in 200-299; at
    most one error is logged, and none once the catalog is set. *)
Theorem catalog_only_from_success (evs : list Event) :
  let st := run initial evs in
  (searchableItems st ≠ [] →
   ∃ status, 200 ≤ status ≤ 299
     ∧ FetchSettled (Response status (Some (searchableItems st))) ∈ evs)
  ∧ (length (console st) ≤ 1)%nat
  ∧ (searchableItems st ≠ [] → console st = []).
Proof.
  intros st.
  destruct (accounted_run evs) as (Hitems & _ & Hlen & Hlog & _).
  fold st in Hitems, Hlen, Hlog.
  split; [| split; [done |]].
  - intros Hne. by destruct Hitems.
  - intros Hne. destruct (decide (console st = [])) as [? | Hc]; [done |].
    by destruct (Hlog Hc).
Qed.

Lemma catalog_only_from_success_witness :
  let data := [Catalog.plain (ofString "Home") None] in
  let evs := [FetchSettled (Response 200 (Some data)); JsonSettled] in
  searchableItems (run initial evs) ≠ []
  ∧ console (run initial evs) = [].
Proof.
  intros data evs.
  assert (Hne : searchableItems (run initial evs) ≠ []) by done.
  split; [exact Hne |].
  exact (proj2 (proj2 (catalog_only_from_success evs)) Hne).
Defined.

Lemma catalog_loaded_witness :
  let data := [Catalog.plain (ofString "Home") None] in
  searchableItems
    (run initial [FetchSettled (Response 204 (Some data)); JsonSettled])
  = data.
Proof.
  intros data.
  exact (LoaderProperties.catalog_loaded 204 data ltac:(lia)).
Defined.

End LoaderRunsProperties.

(** ** Properties of the search box and the pay dropdown *)

Module TopBarUIProperties.
Import TopBar TopBarUI JsStringFacts SelectionProperties.

Lemma handleSearchSelect_state page result st :
  (handleSearchSelect page result st).2 = clearSearch st.
Proof. unfold handleSearchSelect. by destruct (startsWith _ _). Qed.

Lemma inRange_step_search st ev :
  Selection.inRange (search st) → Selection.inRange (search (step st ev)).
Proof.
  intros H.
  destruct ev as [v| |page key|i|page i|inSearch inPay| | |y|data]; simpl;
    try done.
  - by apply inRange_setSearchQuery.
  - destruct key; simpl; try done.
    + by apply (inRange_handleSearchKeyDown Selection.ArrowDown).
    + by apply (inRange_handleSearchKeyDown Selection.ArrowUp).
    + case_decide; [| done].
      destruct (searchResults st !! _) as [result|]; [| done].
      pose proof (handleSearchSelect_state page result st) as Hst.
      destruct (handleSearchSelect page result st) as [effects st'].
      simpl in *. subst st'. simpl. by apply inRange_setSearchQuery.
    + by apply inRange_setSearchQuery.
  - destruct (dropdownShown st); [| done].
    destruct (searchResults st !! i) as [result|] eqn:E; [| done].
    apply lookup_lt_Some in E. unfold searchResults in E.
    unfold Selection.inRange. simpl.
    rewrite results_setSelectedResultIndex. simpl. lia.
  - destruct (dropdownShown st); [| done].
    destruct (searchResults st !! i) as [result|]; [| done].
    rewrite handleSearchSelect_state. simpl. by apply inRange_setSearchQuery.
  - unfold handleClickOutside.
    destruct inSearch, inPay; simpl; try done;
      by apply inRange_setSearchQuery.
  - unfold handlePayClick. by destruct (isScrolled st).
  - apply inRange_recompute.
Qed.

Lemma inRange_run_search catalog evs :
  Selection.inRange (search (run catalog evs)).
Proof.
  unfold run. induction evs as [|ev evs IH] using rev_ind.
  - unfold Selection.inRange. simpl. lia.
  - rewrite foldl_snoc. by apply inRange_step_search.
Qed.

(** In every state the component reaches no key makes the key handler
    throw: when Enter finds a selected index, the result at that index
    exists, and it is the one selected. *)
Theorem enter_selects_existing_result (catalog : list SearchResult)
    (evs : list Event) (page : Page) :
  let st := run catalog evs in
  (∀ key, is_Some (handleSearchKeyDown page key st))
  ∧ (0 ≤ selectedResultIndex st →
     ∃ result,
       searchResults st !! Z.to_nat (selectedResultIndex st) = Some result
       ∧ handleSearchKeyDown page Selection.Enter st
         = Some (PreventDefault :: (handleSearchSelect page result st).1,
                 clearSearch st)).
Proof.
  intros st.
  pose proof (inRange_run_search catalog evs) as Hr. fold st in Hr.
  unfold Selection.inRange in Hr.
  assert (Hex : 0 ≤ selectedResultIndex st →
    ∃ result,
      searchResults st !! Z.to_nat (selectedResultIndex st) = Some result).
  { intros Hi. apply lookup_lt_is_Some.
    unfold searchResults, selectedResultIndex in *. lia. }
  split.
  - intros key. destruct key; simpl; try done.
    case_decide as Hi; [| done].
    destruct (Hex Hi) as [result ->].
    by destruct (handleSearchSelect page result st).
  - intros Hi. destruct (Hex Hi) as [result Hres]. exists result.
    split; [done |]. simpl. rewrite decide_True by done. rewrite Hres.
    pose proof (handleSearchSelect_state page result st) as Hst.
    destruct (handleSearchSelect page result st) as [effects st'].
    simpl in *. by subst st'.
Qed.

Lemma enter_selects_existing_result_witness :
  let page :=
    {| pathname := ofString "/"; scrollY := 0; elementTop := λ _, None |} in
  let st := run Catalog.SEARCHABLE_ITEMS
              [Change (ofString "legal");
               KeyDown page Selection.ArrowDown] in
  0 ≤ selectedResultIndex st
  ∧ ∃ result,
      searchResults st !! Z.to_nat (selectedResultIndex st) = Some result.
Proof.
  intros page st.
  assert (Hi : 0 ≤ selectedResultIndex st) by (vm_compute; discriminate).
  split; [exact Hi |].
  destruct (proj2 (enter_selects_existing_result Catalog.SEARCHABLE_ITEMS
              [Change (ofString "legal"); KeyDown page Selection.ArrowDown]
              page) Hi) as (result & Hres & _).
  by exists result.
Defined.

Lemma closed_clear st :
  Selection.inRange (search st) →
  Selection.searchQuery (Selection.setSearchQuery [] (search st)) = []
  ∧ Selection.results (Selection.setSearchQuery [] (search st)) = []
  ∧ Selection.selectedResultIndex (Selection.setSearchQuery [] (search st))
    = -1.
Proof.
  intros Hr. unfold Selection.setSearchQuery.
  case_decide as Hq; [| done].
  unfold Selection.inRange, Selection.results in *.
  rewrite <- Hq in *. simpl in *. split; [done |]. split; [done | lia].
Qed.

Lemma closed_clearSearch st :
  Selection.inRange (search st) → closed (clearSearch st).
Proof.
  intros Hr. destruct (closed_clear st Hr) as (Hq & Hres & Hi).
  unfold closed, dropdownShown, searchResults, selectedResultIndex. simpl.
  rewrite Hres. simpl. by rewrite andb_false_r.
Qed.

Lemma closed_collapseSearch st :
  Selection.inRange (search st) → closed (collapseSearch st).
Proof.
  intros Hr. destruct (closed_clear st Hr) as (Hq & Hres & Hi).
  unfold closed, dropdownShown, searchResults, selectedResultIndex. simpl.
  by rewrite Hres.
Qed.

(** In every state the component reaches, Escape, a mouse press outside
    the search container and the selection of a result each leave the
    search closed: the query empty, no results, no selected index and no
    dropdown. *)
Theorem closing_events_close (catalog : list SearchResult)
    (evs : list Event) :
  let st := run catalog evs in
  (∀ page, closed (step st (KeyDown page Selection.Escape)))
  ∧ (∀ inPay, closed (step st (MouseDown false inPay)))
  ∧ (∀ page result, closed (handleSearchSelect page result st).2)
  ∧ (∀ page, 0 ≤ selectedResultIndex st →
       closed (step st (KeyDown page Selection.Enter))).
Proof.
  intros st.
  pose proof (inRange_run_search catalog evs) as Hr. fold st in Hr.
  split; [| split; [| split]].
  - intros page. by apply closed_collapseSearch.
  - intros inPay. simpl. unfold handleClickOutside. simpl.
    pose proof (closed_collapseSearch st Hr) as Hc.
    by destruct inPay.
  - intros page result. rewrite handleSearchSelect_state.
    by apply closed_clearSearch.
  - intros page Hi. simpl. rewrite decide_True by done.
    destruct (searchResults st !! _) as [result|] eqn:E.
    + pose proof (handleSearchSelect_state page result st) as Hst.
      destruct (handleSearchSelect page result st) as [effects st'].
      simpl in *. subst st'. by apply closed_clearSearch.
    + exfalso. apply lookup_ge_None in E.
      unfold Selection.inRange, searchResults, selectedResultIndex in *. lia.
Qed.

Lemma closing_events_close_witness :
  let page :=
    {| pathname := ofString "/"; scrollY := 0; elementTop := λ _, None |} in
  let st := run Catalog.SEARCHABLE_ITEMS
              [SearchIconClick; Focus; Change (ofString "legal");
               KeyDown page Selection.ArrowDown] in
  dropdownShown st = true
  ∧ 0 ≤ selectedResultIndex st
  ∧ closed (step st (KeyDown page Selection.Enter)).
Proof.
  intros page st.
  assert (Hi : 0 ≤ selectedResultIndex st) by (vm_compute; discriminate).
  split; [vm_compute; reflexivity |]. split; [exact Hi |].
  exact (proj2 (proj2 (proj2 (closing_events_close Catalog.SEARCHABLE_ITEMS
           [SearchIconClick; Focus; Change (ofString "legal");
            KeyDown page Selection.ArrowDown]))) page Hi).
Defined.

(** While the dropdown is shown the search box is expanded and focused,
    the trimmed query is not empty, and there are between one and eight
    rows. *)
Theorem dropdown_rows (st : State) :
  dropdownShown st = true →
  isSearchExpanded st = true ∧ isSearchFocused st = true
  ∧ trim (Selection.searchQuery (search st)) ≠ []
  ∧ (1 ≤ length (searchResults st) ≤ 8)%nat.
Proof.
  unfold dropdownShown.
  intros [[He Hf]%andb_true_iff Hl%bool_decide_eq_true]%andb_true_iff.
  split; [done |]. split; [done |].
  unfold searchResults, Selection.results in *.
  destruct (decide (blank (Selection.searchQuery (search st)))) as [Hb | Hb].
  - rewrite Ranking.searchResults_blank in Hl by done. simpl in Hl. lia.
  - split; [by rewrite trim_nil |].
    rewrite Ranking.searchResults_ranking in * by done.
    rewrite length_take in *. lia.
Qed.

Lemma dropdown_rows_witness :
  let st := run Catalog.SEARCHABLE_ITEMS
              [SearchIconClick; Focus; Change (ofString "a")] in
  dropdownShown st = true ∧ length (searchResults st) = 8%nat.
Proof.
  intros st.
  assert (Hs : dropdownShown st = true) by (vm_compute; reflexivity).
  split; [exact Hs |].
  destruct (dropdown_rows st Hs) as (_ & _ & _ & Hlen).
  assert (Hge : (8 ≤ length (searchResults st))%nat)
    by (vm_compute; repeat constructor).
  lia.
Defined.

Lemma unfocused_step st ev :
  ev ≠ Focus → isSearchFocused st = false →
  isSearchFocused (step st ev) = false.
Proof.
  intros Hev Hf.
  destruct ev as [v| |page key|i|page i|inSearch inPay| | |y|data]; simpl;
    try done.
  - destruct key; simpl; try done.
    case_decide; [| done].
    destruct (searchResults st !! _) as [result|]; [| done].
    pose proof (handleSearchSelect_state page result st) as Hst.
    destruct (handleSearchSelect page result st) as [effects st'].
    simpl in *. by subst st'.
  - unfold dropdownShown. by rewrite Hf, andb_false_r.
  - unfold dropdownShown. by rewrite Hf, andb_false_r.
  - unfold handleClickOutside. by destruct inSearch, inPay.
  - unfold handlePayClick. by destruct (isScrolled st).
Qed.

(** Only the focus event of the input sets the focused flag: once a
    result was selected, or Escape pressed, whatever is typed and
    whichever keys follow, the dropdown stays hidden until the input is
    focused anew. *)
Theorem dropdown_hidden_until_focus (st : State) (evs : list Event) :
  isSearchFocused st = false →
  Forall (λ ev, ev ≠ Focus) evs →
  isSearchFocused (foldl step st evs) = false
  ∧ dropdownShown (foldl step st evs) = false.
Proof.
  intros Hf Hevs.
  assert (H : isSearchFocused (foldl step st evs) = false).
  { revert st Hf. induction Hevs as [|ev evs Hev _ IH]; intros st Hf;
      [done |].
    simpl. by apply IH, unfocused_step. }
  split; [done |]. unfold dropdownShown. by rewrite H, andb_false_r.
Qed.

Lemma dropdown_hidden_until_focus_witness :
  let page :=
    {| pathname := ofString "/"; scrollY := 0; elementTop := λ _, None |} in
  let st := run Catalog.SEARCHABLE_ITEMS
              [SearchIconClick; Focus; Change (ofString "legal");
               KeyDown page Selection.ArrowDown;
               KeyDown page Selection.Enter] in
  isSearchFocused st = false
  ∧ length (searchResults (foldl step st [Change (ofString "app")])) = 4%nat
  ∧ dropdownShown (foldl step st [Change (ofString "app")]) = false.
Proof.
  intros page st.
  assert (Hf : isSearchFocused st = false) by (vm_compute; reflexivity).
  split; [exact Hf |]. split; [vm_compute; reflexivity |].
  refine (proj2 (dropdown_hidden_until_focus st [Change (ofString "app")]
                   Hf _)).
  repeat constructor. discriminate.
Defined.

(** The pay button.  On a page that is not scrolled a click changes
    nothing and leaves the link to the browser; on a scrolled page it is
    kept from the link and toggles the dropdown, so that two clicks leave
    the state as it was.  The dropdown is shown only on a scrolled page,
    and a mouse press outside the pay container hides it; scrolling to
    the top hides it without closing it, so that scrolling down shows it
    again. *)
Theorem pay_dropdown (st : State) :
  (isScrolled st = false → handlePayClick st = ([], st))
  ∧ (isScrolled st = true →
     (handlePayClick st).1 = [PreventDefault]
     ∧ showPayDropdown (handlePayClick st).2 = negb (showPayDropdown st)
     ∧ (handlePayClick (handlePayClick st).2).2 = st)
  ∧ (payDropdownShown st = true → isScrolled st = true)
  ∧ (∀ inSearch,
       payDropdownShown (handleClickOutside inSearch false st) = false)
  ∧ (payDropdownShown st = true → ∀ y1 y2, y1 ≤ 100 → 100 < y2 →
       payDropdownShown (handleScroll y1 st) = false
       ∧ payDropdownShown (handleScroll y2 (handleScroll y1 st)) = true).
Proof.
  unfold handlePayClick, payDropdownShown.
  split; [| split; [| split; [| split]]].
  - by intros ->.
  - intros Hs. rewrite Hs. simpl.
    split; [done |]. split; [done |].
    destruct st. simpl in *. subst. by rewrite negb_involutive.
  - by intros [? _]%andb_true_iff.
  - intros inSearch. unfold handleClickOutside. simpl.
    by rewrite andb_false_r.
  - intros [_ Hp]%andb_true_iff y1 y2 H1 H2. simpl.
    rewrite Hp, bool_decide_eq_false_2, bool_decide_eq_true_2 by lia. done.
Qed.

Lemma pay_dropdown_witness :
  let st := run [] [Scroll 400; PayClick] in
  payDropdownShown st = true
  ∧ payDropdownShown (handleScroll 0 st) = false
  ∧ payDropdownShown (handleScroll 400 (handleScroll 0 st)) = true.
Proof.
  intros st.
  assert (Hp : payDropdownShown st = true) by reflexivity.
  split; [exact Hp |].
  exact (proj2 (proj2 (proj2 (proj2 (pay_dropdown st)))) Hp 0 400
           ltac:(lia) ltac:(lia)).
Defined.

(** Selecting a result.  A result whose path starts with "http" is opened
    in a new window and nothing else happens.  Any other result navigates
    at most once; the session storage is written only for a result with
    a section whose path is "/", selected on another page than "/", and
    then after navigating to "/" and with that section; on the page "/"
    a result with a section never leaves the page, and scrolls to 100
    above its element when the document has it. *)
Theorem select_effects (page : Page) (result : SearchResult) (st : State) :
  let effects := (handleSearchSelect page result st).1 in
  let external := startsWith (path result) (ofString "http") in
  (external = true → effects = [WindowOpen (path result)])
  ∧ (length (filter (λ e, leaves e = true) effects) ≤ 1)%nat
  ∧ (∀ key value, SessionStorageSet key value ∈ effects ↔
       external = false ∧ sectionOf result = Some value
       ∧ pathname page ≠ ofString "/" ∧ path result = ofString "/"
       ∧ key = ofString "scrollToSection"
       ∧ effects = [Navigate (ofString "/"); SessionStorageSet key value])
  ∧ (external = false → pathname page = ofString "/" →
     ∀ s, sectionOf result = Some s →
       effects = match elementTop page s with
                 | Some top => [WindowScrollTo (top + scrollY page - 100)]
                 | None => []
                 end)
  ∧ (external = false → sectionOf result = None →
     effects = [Navigate (path result)]).
Proof.
  intros effects external. subst effects external.
  unfold handleSearchSelect.
  destruct (startsWith (path result) (ofString "http")) eqn:Hext; simpl.
  { split; [done |]. split; [simpl; lia |]. split; [| done].
    intros key value. split.
    - intros H. apply list_elem_of_singleton in H. done.
    - by intros [? _]. }
  split; [done |].
  destruct (sectionOf result) as [s|] eqn:Hsec.
  2: { split; [simpl; lia |]. split; [| done].
       intros key value. split.
       - intros H. apply list_elem_of_singleton in H. done.
       - by intros (_ & ? & _). }
  destruct (eqb (pathname page) (ofString "/")) eqn:Hpage.
  { apply eqb_true in Hpage. simpl.
    split; [destruct (elementTop page s); simpl; lia |].
    split; [| split; [by intros _ _ ? [= <-] | done]].
    intros key value. split.
    - destruct (elementTop page s); intros H.
      + apply list_elem_of_singleton in H. done.
      + by apply elem_of_nil in H.
    - by intros (_ & _ & ? & _). }
  apply eqb_false in Hpage. simpl.
  destruct (eqb (path result) (ofString "/")) eqn:Hpath.
  - apply eqb_true in Hpath.
    split; [simpl; lia |]. split; [| done].
    intros key value. split.
    + intros H. apply elem_of_cons in H as [H | H]; [done |].
      apply list_elem_of_singleton in H. injection H as -> ->. done.
    + intros (_ & [= ->] & _ & _ & -> & _). right. left.
  - apply eqb_false in Hpath.
    split; [simpl; lia |]. split; [| done].
    intros key value. split.
    + intros H. apply list_elem_of_singleton in H. done.
    + by intros (_ & _ & _ & ? & _).
Qed.

Lemma select_effects_witness :
  let page :=
    {| pathname := ofString "/careers"; scrollY := 0;
       elementTop := λ _, None |} in
  let result :=
    Catalog.entry "demo-video" "Demo Video" TSection "/" (Some "demo-video")
      70 ["video"; "demo"; "watch"; "see"]%string in
  (handleSearchSelect page result (initial [])).1
  = [Navigate (ofString "/");
     SessionStorageSet (ofString "scrollToSection") (ofString "demo-video")].
Proof.
  intros page result.
  destruct (proj1 (proj2 (proj2 (select_effects page result (initial []))))
              (ofString "scrollToSection") (ofString "demo-video"))
    as [Hto _].
  refine (proj2 (proj2 (proj2 (proj2 (proj2 (Hto _)))))).
  right. left.
Defined.

End TopBarUIProperties.

(** ** Moving the selection *)

Module SelectionMore.
Import TopBar Selection SelectionProperties.

Lemma results_arrow key st :
  key = ArrowDown ∨ key = ArrowUp →
  results (handleSearchKeyDown key st) = results st.
Proof. by intros [-> | ->]. Qed.

Lemma results_iter key k st :
  key = ArrowDown ∨ key = ArrowUp →
  results (Nat.iter k (handleSearchKeyDown key) st) = results st.
Proof.
  intros Hk. induction k as [|k IH]; [done |].
  simpl. by rewrite results_arrow.
Qed.

(** Pressing ArrowDown [k] times moves the selection [k] rows down and
    stops at the last row; pressing ArrowUp [k] times moves it [k] rows
    up and stops at no selection. *)
Theorem arrows_move_and_stop (st : State) (k : nat) :
  inRange st →
  let i := selectedResultIndex st in
  let lastIndex := Z.of_nat (length (results st)) - 1 in
  selectedResultIndex (Nat.iter k (handleSearchKeyDown ArrowDown) st)
  = Z.min (i + Z.of_nat k) lastIndex
  ∧ selectedResultIndex (Nat.iter k (handleSearchKeyDown ArrowUp) st)
    = Z.max (i - Z.of_nat k) (-1).
Proof.
  intros Hr. unfold inRange in Hr. cbv zeta. split.
  - induction k as [|k IH]; [simpl; lia |].
    change (Nat.iter (S k) ?f ?x) with (f (Nat.iter k f x)).
    simpl. rewrite IH, results_iter by auto.
    case_decide; lia.
  - induction k as [|k IH]; [simpl; lia |].
    change (Nat.iter (S k) ?f ?x) with (f (Nat.iter k f x)).
    simpl. rewrite IH. case_decide; lia.
Qed.

Lemma arrows_move_and_stop_witness :
  let st := run Catalog.SEARCHABLE_ITEMS [Change (ofString "app")] in
  inRange st
  ∧ selectedResultIndex (Nat.iter 2 (handleSearchKeyDown ArrowDown) st) = 1
  ∧ selectedResultIndex (Nat.iter 9 (handleSearchKeyDown ArrowDown) st) = 3.
Proof.
  intros st.
  assert (Hr : inRange st) by apply inRange_run.
  split; [exact Hr |]. split.
  - rewrite (proj1 (arrows_move_and_stop st 2 Hr)). vm_compute. reflexivity.
  - rewrite (proj1 (arrows_move_and_stop st 9 Hr)). vm_compute. reflexivity.
Defined.

(** ArrowUp undoes ArrowDown unless the selection was on the last row,
    and ArrowDown undoes ArrowUp unless there was no selection. *)
Theorem arrows_undo (st : State) :
  inRange st →
  (selectedResultIndex st < Z.of_nat (length (results st)) - 1 →
   handleSearchKeyDown ArrowUp (handleSearchKeyDown ArrowDown st) = st)
  ∧ (0 ≤ selectedResultIndex st →
     handleSearchKeyDown ArrowDown (handleSearchKeyDown ArrowUp st) = st).
Proof.
  unfold inRange. intros Hr. split; intros Hi.
  - destruct st as [q items i n]. unfold handleSearchKeyDown,
      setSelectedResultIndex, results in *. simpl in *.
    f_equal. repeat case_decide; lia.
  - destruct st as [q items i n]. unfold handleSearchKeyDown,
      setSelectedResultIndex, results in *. simpl in *.
    f_equal. repeat case_decide; lia.
Qed.

Lemma arrows_undo_witness :
  let st := run Catalog.SEARCHABLE_ITEMS [Change (ofString "app")] in
  inRange st
  ∧ handleSearchKeyDown ArrowUp (handleSearchKeyDown ArrowDown st) = st.
Proof.
  intros st.
  assert (Hr : inRange st) by apply inRange_run.
  split; [exact Hr |].
  apply (proj1 (arrows_undo st Hr)). vm_compute. reflexivity.
Defined.

End SelectionMore.

